(** * Digital Collection Uptime Monitor: a shallow embedding of [monitor.py]

    The development follows the source file top-down:
    - the Python exception classes that [check_collection] dispatches on;
    - the probe result dictionary and [check_collection];
    - the thread-pool fan-out of [monitor_all_collections], as a transition
      system over pending, running and completed futures;
    - the [monitoring_results] table with [save_results],
      [get_current_status] and [get_uptime_stats].

    Numbers: Python [int] and SQLite INTEGER are [Z].  Python [float] and
    SQLite REAL are IEEE 754 binary64 numbers; a finite one is the rational
    it denotes, and every floating-point operation is the exact operation
    followed by [float64], the rounding to the nearest binary64 number,
    ties to even.  Text (Python [str], SQLite TEXT under the BINARY
    collation) is [string], ordered byte-wise by [String.compare]. *)

From Stdlib Require Import List String Ascii Bool ZArith QArith Qabs Lia.
From Stdlib Require Import Permutation Sorted DecimalString.
Import ListNotations.

Local Open Scope string_scope.
Local Open Scope Z_scope.

(** ** Python values used by the monitor *)

Module Py.

(** The exception classes that [session.get] can raise, with the classes
    of the standard library that they derive from.  [ConnectionError] and
    [Timeout] are the classes of [requests.exceptions]. *)
Inductive exc_class : Set :=
| Exception
| OSError
| ValueError
| TypeError
| RequestException
| HTTPError
| ConnectionError
| ProxyError
| SSLError
| Timeout
| ConnectTimeout
| ReadTimeout
| URLRequired
| TooManyRedirects
| MissingSchema
| InvalidSchema
| InvalidURL
| InvalidHeader
| InvalidProxyURL
| ChunkedEncodingError
| ContentDecodingError
| StreamConsumedError
| RetryError
| UnrewindableBodyError.

Definition exc_class_eq_dec (c d : exc_class) : {c = d} + {c <> d}.
Proof. decide equality. Defined.

Definition exc_class_eqb (c d : exc_class) : bool :=
  if exc_class_eq_dec c d then true else false.

(** The direct base classes, as the [class] statements list them. *)
Definition bases (c : exc_class) : list exc_class :=
  match c with
  | Exception => []
  | OSError | ValueError | TypeError => [Exception]
  | RequestException => [OSError]
  | HTTPError | ConnectionError | Timeout | URLRequired | TooManyRedirects
  | ChunkedEncodingError | ContentDecodingError | RetryError
  | UnrewindableBodyError => [RequestException]
  | ProxyError | SSLError => [ConnectionError]
  | ConnectTimeout => [ConnectionError; Timeout]
  | ReadTimeout => [Timeout]
  | MissingSchema | InvalidSchema | InvalidURL | InvalidHeader =>
      [RequestException; ValueError]
  | InvalidProxyURL => [InvalidURL]
  | StreamConsumedError => [RequestException; TypeError]
  end.

(** [issubclass c d]: [d] is reached from [c] along [bases]. *)
Fixpoint issubclass_upto (depth : nat) (c d : exc_class) : bool :=
  exc_class_eqb c d ||
  match depth with
  | O => false
  | S depth' => existsb (fun b => issubclass_upto depth' b d) (bases c)
  end.

Definition issubclass : exc_class -> exc_class -> bool := issubclass_upto 6.

(** A raised exception: its class and the text that [str(e)] gives. *)
Record exc : Set := mk_exc { exc_type : exc_class; exc_str : string }.

Definition isinstance (e : exc) (c : exc_class) : bool :=
  issubclass (exc_type e) c.

(** The result of running a statement that may raise. *)
Inductive outcome (A : Type) : Type :=
| Return (a : A)
| Raise (e : exc).
Arguments Return {A} a.
Arguments Raise {A} e.

(** [str(n)] of an [int], as an f-string formats it. *)
Definition str_int (n : Z) : string := NilZero.string_of_int (Z.to_int n).

(** The nearest integer, ties to the even one. *)
Definition round_half_even (x : Q) : Z :=
  let n := Qnum x in
  let d := Zpos (Qden x) in
  let q := n / d in
  let r := n mod d in
  if 2 * r <? d then q
  else if d <? 2 * r then q + 1
  else if Z.even q then q else q + 1.

(** [2^k], for any integer [k]. *)
Definition pow2 (k : Z) : Q :=
  if 0 <=? k then inject_Z (2 ^ k) else / inject_Z (2 ^ (- k)).

(** The [e] with [2^e <= |x| < 2^(e+1)], for [x] other than zero. *)
Definition binade (x : Q) : Z :=
  let e0 := Z.log2 (Z.abs (Qnum x)) - Z.log2 (Zpos (Qden x)) in
  if Qle_bool (pow2 e0) (Qabs x) then e0 else e0 - 1.

(** Rounding to binary64: 53 bits of mantissa whose last bit weighs
    [2^(e-52)], and no less than [2^-1074]; ties go to the even mantissa.
    The result is in lowest terms, so equal floats are equal terms.
    Overflow to infinity is beyond the numbers the monitor computes with
    and is not modelled. *)
Definition float64 (x : Q) : Q :=
  let x := Qred x in
  if Qeq_bool x 0 then 0%Q
  else
    let q := Z.max (binade x - 52) (-1074) in
    Qred (inject_Z (round_half_even (x * pow2 (- q))) * pow2 q).

(** Arithmetic on floats. *)
Definition float_add (x y : Q) : Q := float64 (x + y).
Definition float_sub (x y : Q) : Q := float64 (x - y).
Definition float_mul (x y : Q) : Q := float64 (x * y).
Definition float_div (x y : Q) : Q := float64 (x / y).

(** [a / b] on [int]: the quotient, correctly rounded. *)
Definition int_truediv (a b : Z) : Q := float64 (inject_Z a / inject_Z b).

(** [round(x, 2)] on a [float]: the decimal with two places nearest to [x],
    ties to the even one, and then the float nearest to that decimal. *)
Definition round2 (x : Q) : Q :=
  float64 (inject_Z (round_half_even (x * 100)) / 100).

(** Truth value of a [float]: every value but zero. *)
Definition float_truthy (x : Q) : bool := negb (Qeq_bool x 0).

End Py.

Import Py.

(** ** The probe: [check_collection] *)

(** The dictionary that [check_collection] builds and returns; its eight
    keys are fixed, so it is a record. *)
Record ProbeResult : Set := mkProbeResult {
  collection_name : string;
  url : string;
  timestamp : string;
  is_accessible : bool;
  status_code : option Z;
  response_time : option Q;
  content_length : option Z;
  error_message : option string
}.

(** The assignments [result[key] = value] of the source. *)
Definition set_status_code (r : ProbeResult) (v : option Z) : ProbeResult :=
  mkProbeResult (collection_name r) (url r) (timestamp r) (is_accessible r)
    v (response_time r) (content_length r) (error_message r).

Definition set_response_time (r : ProbeResult) (v : option Q) : ProbeResult :=
  mkProbeResult (collection_name r) (url r) (timestamp r) (is_accessible r)
    (status_code r) v (content_length r) (error_message r).

Definition set_content_length (r : ProbeResult) (v : option Z) : ProbeResult :=
  mkProbeResult (collection_name r) (url r) (timestamp r) (is_accessible r)
    (status_code r) (response_time r) v (error_message r).

Definition set_is_accessible (r : ProbeResult) (v : bool) : ProbeResult :=
  mkProbeResult (collection_name r) (url r) (timestamp r) v
    (status_code r) (response_time r) (content_length r) (error_message r).

Definition set_error_message (r : ProbeResult) (v : option string)
  : ProbeResult :=
  mkProbeResult (collection_name r) (url r) (timestamp r) (is_accessible r)
    (status_code r) (response_time r) (content_length r) v.

(** What the probe reads of a [requests.Response]. *)
Record Response : Set := mkResponse {
  resp_status_code : Z;
  resp_content : string
}.

(** Everything outside the process that one call of [check_collection]
    observes: the wall clock ([datetime.now().isoformat()] and the two
    readings of [time.time()]) and the behaviour of the network for
    [session.get(url, timeout=timeout, allow_redirects=True)]. *)
Record ProbeWorld : Type := mkProbeWorld {
  now_isoformat : string;
  start_time : Q;
  end_time : Q;
  session_get : string -> Z -> outcome Response
}.

(** The body of the [try] statement.  Only [session.get] raises; the state
    of [result] at that point is returned with the exception. *)
Definition try_body (w : ProbeWorld) (url : string) (timeout : Z)
    (result : ProbeResult) : ProbeResult * option exc :=
  match session_get w url timeout with
  | Raise e => (result, Some e)
  | Return response =>
      let result := set_status_code result (Some (resp_status_code response)) in
      let result :=
        set_response_time result
          (Some (round2 (float_sub (end_time w) (start_time w)))) in
      let result :=
        set_content_length result
          (Some (Z.of_nat (String.length (resp_content response)))) in
      let result :=
        set_is_accessible result
          ((200 <=? resp_status_code response)
           && (resp_status_code response <? 400)) in
      let result :=
        if negb (is_accessible result)
        then set_error_message result
               (Some ("HTTP " ++ str_int (resp_status_code response)))
        else result in
      (result, None)
  end.

(** The [except] clauses, tried in the order they are written. *)
Definition except_clauses (e : exc) (result : ProbeResult)
  : outcome ProbeResult :=
  if isinstance e Timeout then
    Return (set_error_message result (Some "Request timeout"))
  else if isinstance e ConnectionError then
    Return (set_error_message result (Some "Connection error"))
  else if isinstance e RequestException then
    Return (set_error_message result (Some (exc_str e)))
  else if isinstance e Exception then
    Return (set_error_message result
              (Some ("Unexpected error: " ++ exc_str e)))
  else Raise e.

Definition check_collection (w : ProbeWorld) (name url : string)
    (timeout : Z) : outcome ProbeResult :=
  let result :=
    {| collection_name := name;
       url := url;
       timestamp := now_isoformat w;
       is_accessible := false;
       status_code := None;
       response_time := None;
       content_length := None;
       error_message := None |} in
  match try_body w url timeout result with
  | (result, None) => Return result
  | (result, Some e) => except_clauses e result
  end.

(** The invariant of the data model on a probe result. *)
Definition status_in_range (r : ProbeResult) : Prop :=
  exists sc, status_code r = Some sc /\ 200 <= sc < 400.

Definition valid_ProbeResult (r : ProbeResult) : Prop :=
  (is_accessible r = true <-> status_in_range r) /\
  (is_accessible r = true <-> error_message r = None) /\
  (is_accessible r = false -> exists msg, error_message r = Some msg).

(** Two worlds used as examples below. *)
Definition world_ok : ProbeWorld :=
  {| now_isoformat := "2024-05-01T12:00:00.000123";
     start_time := 0;
     end_time := 1 # 10;
     session_get := fun _ _ => Return (mkResponse 200 "<html></html>") |}.

Definition world_connect_timeout : ProbeWorld :=
  {| now_isoformat := "2024-05-01T12:00:00.000123";
     start_time := 0;
     end_time := 10;
     session_get := fun _ _ =>
       Raise (mk_exc ConnectTimeout "connect timed out") |}.


(** ** The fan-out: [monitor_all_collections] *)

(** [self.collections]: a dictionary from name to URL, in insertion order. *)
Definition Target : Set := (string * string)%type.

(** The collections that [__init__] configures. *)
Definition collections : list Target :=
  [ ("Library of Congress Digital Collections",
     "https://www.loc.gov/collections/");
    ("Digital Public Library of America", "https://dp.la/");
    ("Internet Archive", "https://archive.org/");
    ("HathiTrust Digital Library", "https://www.hathitrust.org/");
    ("Europeana", "https://www.europeana.eu/");
    ("World Digital Library", "https://www.wdl.org/");
    ("National Archives Catalog", "https://catalog.archives.gov/");
    ("Smithsonian Open Access", "https://www.si.edu/openaccess");
    ("Getty Research Institute", "https://www.getty.edu/research/");
    ("DPLA - Digital Public Library of America", "https://pro.dp.la/");
    ("Perseus Digital Library", "http://www.perseus.tufts.edu/");
    ("Google Arts & Culture", "https://artsandculture.google.com/");
    ("Metropolitan Museum API", "https://metmuseum.github.io/");
    ("Biodiversity Heritage Library", "https://www.biodiversitylibrary.org/");
    ("David Rumsey Map Collection", "https://www.davidrumsey.com/") ].

(** The thread pool and the loop over [as_completed], as one state:
    - [unsubmitted]: items of [self.collections.items()] that the dictionary
      comprehension has not passed to [executor.submit] yet;
    - [pending]: futures in the work queue of the executor;
    - [running]: futures a worker thread is executing;
    - [finished]: completed futures that [as_completed] has not yielded yet,
      each with the outcome of its call;
    - [results]: the list the loop appends to. *)
Record PoolState : Type := mkPoolState {
  unsubmitted : list Target;
  pending : list Target;
  running : list Target;
  finished : list (Target * outcome ProbeResult);
  results : list ProbeResult
}.

(** What can happen next.  A probe that completes does so in some world,
    which the scheduler does not control. *)
Inductive Event : Type :=
| Submit
| Start
| Finish (i : nat) (w : ProbeWorld)
| Collect (j : nat).

Definition remove_nth {A : Type} (i : nat) (l : list A) : list A :=
  (firstn i l ++ skipn (S i) l)%list.

(** The body of the [for future in as_completed(...)] loop: the result of
    the future is appended; an [Exception] raised by the call is printed and
    nothing is appended; anything else leaves the loop. *)
Definition collect_future (o : outcome ProbeResult)
    (results : list ProbeResult) : outcome (list ProbeResult) :=
  match o with
  | Return result => Return (results ++ [result])%list
  | Raise e => if isinstance e Exception then Return results else Raise e
  end.

(** One event, when it is enabled.  At most [max_workers] probes run at a
    time, and the loop starts once everything is submitted. *)
Definition step (max_workers : Z) (ev : Event) (s : PoolState)
  : option PoolState :=
  match ev with
  | Submit =>
      match unsubmitted s with
      | t :: rest =>
          Some (mkPoolState rest (pending s ++ [t]) (running s)
                  (finished s) (results s))
      | [] => None
      end
  | Start =>
      match pending s with
      | t :: rest =>
          if Z.of_nat (List.length (running s)) <? max_workers
          then Some (mkPoolState (unsubmitted s) rest (running s ++ [t])
                       (finished s) (results s))
          else None
      | [] => None
      end
  | Finish i w =>
      match nth_error (running s) i with
      | Some (name, url) =>
          Some (mkPoolState (unsubmitted s) (pending s)
                  (remove_nth i (running s))
                  (finished s
                   ++ [((name, url), check_collection w name url 10)])
                  (results s))
      | None => None
      end
  | Collect j =>
      match unsubmitted s, nth_error (finished s) j with
      | [], Some (_, o) =>
          match collect_future o (results s) with
          | Return results' =>
              Some (mkPoolState [] (pending s) (running s)
                      (remove_nth j (finished s)) results')
          | Raise _ => None
          end
      | _, _ => None
      end
  end.

(** A run: events taken one after the other. *)
Fixpoint exec (max_workers : Z) (evs : list Event) (s : PoolState)
  : option PoolState :=
  match evs with
  | [] => Some s
  | ev :: evs' =>
      match step max_workers ev s with
      | Some s' => exec max_workers evs' s'
      | None => None
      end
  end.

(** [ThreadPoolExecutor(max_workers=...)] rejects a bound below one. *)
Definition pool_start (max_workers : Z) (collections : list Target)
  : outcome PoolState :=
  if max_workers <=? 0
  then Raise (mk_exc ValueError "max_workers must be greater than 0")
  else Return (mkPoolState collections [] [] [] []).

(** The loop has ended and the [with] block is left: nothing is queued,
    running or waiting to be yielded. *)
Definition all_done (s : PoolState) : bool :=
  match unsubmitted s, pending s, running s, finished s with
  | [], [], [], [] => true
  | _, _, _, _ => false
  end.

(** [monitor_all_collections] along a schedule of events: [None] when the
    schedule is not a complete run of the pool. *)
Definition monitor_all_collections (max_workers : Z)
    (collections : list Target) (schedule : list Event)
  : option (outcome (list ProbeResult)) :=
  match pool_start max_workers collections with
  | Raise e => Some (Raise e)
  | Return s0 =>
      match exec max_workers schedule s0 with
      | Some s => if all_done s then Some (Return (results s)) else None
      | None => None
      end
  end.

(** Work left in a state: every event uses up exactly one unit. *)
Definition work_left (s : PoolState) : nat :=
  (4 * List.length (unsubmitted s) + 3 * List.length (pending s)
   + 2 * List.length (running s) + List.length (finished s))%nat.

(** The names a state accounts for, wherever their future is. *)
Definition names_in (s : PoolState) : list string :=
  (map fst (unsubmitted s) ++ map fst (pending s) ++ map fst (running s)
   ++ map (fun f => fst (fst f)) (finished s)
   ++ map collection_name (results s))%list.

(** Every completed future holds a result for its own target. *)
Definition finished_ok (s : PoolState) : Prop :=
  Forall
    (fun f => exists r, snd f = Return r /\ collection_name r = fst (fst f))
    (finished s).

(** A world in which every request fails to connect. *)
Definition world_down : ProbeWorld :=
  {| now_isoformat := "2024-05-01T12:00:00";
     start_time := 0;
     end_time := 0;
     session_get := fun _ _ =>
       Raise (mk_exc ConnectionError "Name or service not known") |}.

(** A run in which all targets are submitted, then five probes are started
    and the others follow as workers fall free, every probe fails, and the
    results are collected in the order the probes finish. *)
Definition schedule_all_down : list Event :=
  (repeat Submit 15 ++ repeat Start 5
   ++ List.concat (repeat [Finish 0 world_down; Start] 10)
   ++ repeat (Finish 0 world_down) 5
   ++ repeat (Collect 0) 15)%list.

(** ** The result store: table [monitoring_results] *)

(** The rows of the table in insertion (rowid) order.  [save_results] binds
    every column but [id] from a probe result, so a row is that result. *)
Definition Table : Set := list ProbeResult.

(** A database operation: it reads the table and leaves a table behind. *)
Definition DB (A : Type) : Type := Table -> A * Table.

(** One INSERT for each result, in order, then the commit. *)
Definition save_results (results : list ProbeResult) : DB unit :=
  fun db => (tt, fold_left (fun tbl result => tbl ++ [result])%list results db).

(** *** SQL building blocks *)

(** TEXT values compare byte by byte. *)
Definition str_lt (a b : string) : Prop := String.compare a b = Lt.

(** [GROUP BY collection_name ... ORDER BY collection_name]: the distinct
    names, ascending. *)
Fixpoint insert_name (n : string) (l : list string) : list string :=
  match l with
  | [] => [n]
  | m :: l' =>
      match String.compare n m with
      | Lt => n :: l
      | Eq => l
      | Gt => m :: insert_name n l'
      end
  end.

Definition group_keys (rows : list ProbeResult) : list string :=
  fold_right insert_name [] (map collection_name rows).

(** The rows of one group. *)
Definition group_rows (name : string) (rows : list ProbeResult)
  : list ProbeResult :=
  filter (fun r => String.eqb (collection_name r) name) rows.

(** [COUNT( * )]. *)
Definition sql_count (rows : list ProbeResult) : Z :=
  Z.of_nat (List.length rows).

(** [SUM(CASE WHEN is_accessible THEN 1 ELSE 0 END)], over a group; a group
    has at least one row, so the sum is not NULL. *)
Definition sql_sum_accessible (rows : list ProbeResult) : Z :=
  fold_left (fun acc r => acc + (if is_accessible r then 1 else 0)) rows 0.

(** The values of [response_time] that are not NULL. *)
Definition response_times (rows : list ProbeResult) : list Q :=
  flat_map (fun r => match response_time r with
                     | Some t => [t]
                     | None => []
                     end) rows.

(** The running sum that SQLite keeps for [SUM] and [AVG] over REAL
    values: a [double] to which each value is added in floating point, in
    the order the rows of the group are read, which is the order of their
    rowids.  (SQLite releases that carry a compensation term along with
    the sum are not modelled.) *)
Definition float_sum (l : list Q) : Q := fold_left float_add l 0%Q.

(** [AVG(response_time)]: NULL values are skipped; NULL when none is left,
    and else the running sum divided by the number of values. *)
Definition sql_avg_response_time (rows : list ProbeResult) : option Q :=
  match response_times rows with
  | [] => None
  | ts =>
      Some (float_div (float_sum ts) (inject_Z (Z.of_nat (List.length ts))))
  end.

(** [MAX(timestamp)]: NULL on no rows. *)
Definition str_max (a b : string) : string :=
  if String.ltb a b then b else a.

Definition sql_max_timestamp (rows : list ProbeResult) : option string :=
  match rows with
  | [] => None
  | r :: rows' => Some (fold_left str_max (map timestamp rows') (timestamp r))
  end.

(** [ORDER BY collection_name], keeping rowid order among equal names. *)
Fixpoint insert_row (r : ProbeResult) (l : list ProbeResult)
  : list ProbeResult :=
  match l with
  | [] => [r]
  | x :: l' =>
      if String.leb (collection_name r) (collection_name x)
      then r :: l
      else x :: insert_row r l'
  end.

Definition order_by_collection_name (rows : list ProbeResult)
  : list ProbeResult :=
  fold_right insert_row [] rows.

(** *** [get_current_status] *)

(** The dictionaries that [get_current_status] returns. *)
Module Status.
Record t : Set := mk {
  collection_name : string;
  url : string;
  status_code : option Z;
  response_time : option Q;
  timestamp : string;
  error_message : option string;
  is_accessible : bool
}.
End Status.

(** The subquery [SELECT MAX(timestamp) FROM monitoring_results GROUP BY
    collection_name]: one value for each name. *)
Definition max_timestamps (db : Table) : list (option string) :=
  map (fun name => sql_max_timestamp (group_rows name db)) (group_keys db).

(** [x IN (subquery)]: true when [x] equals one of the values. *)
Definition sql_in (x : string) (values : list (option string)) : bool :=
  existsb (fun v => match v with
                    | Some y => String.eqb x y
                    | None => false
                    end) values.

Definition current_status_query (db : Table) : list ProbeResult :=
  order_by_collection_name
    (filter (fun r => sql_in (timestamp r) (max_timestamps db)) db).

Definition get_current_status : DB (list Status.t) :=
  fun db =>
    (map (fun row =>
            Status.mk (collection_name row) (url row) (status_code row)
              (response_time row) (timestamp row) (error_message row)
              (is_accessible row))
       (current_status_query db),
     db).

(** *** [get_uptime_stats] *)

(** The value of one key of the dictionary that [get_uptime_stats] returns. *)
Record Stats : Set := mkStats {
  uptime_percent : Q;
  total_checks : Z;
  successful_checks : Z;
  avg_response_time : option Q
}.

(** A Python [dict] with [str] keys, in insertion order; assigning to a key
    that is present replaces its value in place. *)
Definition dict (V : Type) : Type := list (string * V).

Fixpoint dict_set {V : Type} (d : dict V) (k : string) (v : V) : dict V :=
  match d with
  | [] => [(k, v)]
  | (k', v') :: d' =>
      if String.eqb k' k then (k, v) :: d' else (k', v') :: dict_set d' k v
  end.

Fixpoint dict_get {V : Type} (d : dict V) (k : string) : option V :=
  match d with
  | [] => None
  | (k', v) :: d' => if String.eqb k' k then Some v else dict_get d' k
  end.

(** [WHERE timestamp > ?]: the rows of the window. *)
Definition window_rows (since_time : string) (db : Table) : list ProbeResult :=
  filter (fun r => String.ltb since_time (timestamp r)) db.

(** The rows that the SELECT of [get_uptime_stats] yields. *)
Definition uptime_query (since_time : string) (db : Table)
  : list (string * Z * Z * option Q) :=
  let window := window_rows since_time db in
  map (fun name =>
         let group := group_rows name window in
         (name, sql_count group, sql_sum_accessible group,
          sql_avg_response_time group))
    (group_keys window).

(** The body of the loop over [cursor.fetchall()], for one row. *)
Definition row_stats (total successful : Z) (avg_time : option Q) : Stats :=
  let uptime_percent :=
    if 0 <? total
    then float_mul (int_truediv successful total) 100
    else 0%Q in
  {| uptime_percent := round2 uptime_percent;
     total_checks := total;
     successful_checks := successful;
     avg_response_time :=
       match avg_time with
       | Some avg => if float_truthy avg then Some (round2 avg) else None
       | None => None
       end |}.

(** [since_time_of hours] is what the clock makes of
    [(datetime.now() - timedelta(hours=hours)).isoformat()] at the call. *)
Definition get_uptime_stats (since_time_of : Z -> string) (hours : Z)
  : DB (dict Stats) :=
  fun db =>
    let since_time := since_time_of hours in
    (fold_left
       (fun stats row =>
          match row with
          | (collection_name, total, successful, avg_time) =>
              dict_set stats collection_name
                (row_stats total successful avg_time)
          end)
       (uptime_query since_time db) [],
     db).

(** The counts that the claims about the window speak of. *)
Definition checks_in_window (since_time : string) (db : Table)
    (name : string) : list ProbeResult :=
  filter (fun r => String.eqb (collection_name r) name)
    (window_rows since_time db).

Definition count_total (since_time : string) (db : Table) (name : string)
  : Z :=
  Z.of_nat (List.length (checks_in_window since_time db name)).

Definition count_accessible (since_time : string) (db : Table)
    (name : string) : Z :=
  Z.of_nat (List.length (filter is_accessible
                           (checks_in_window since_time db name))).

(** The entry that a group of the window contributes. *)
Definition group_stats (name : string) (window : list ProbeResult) : Stats :=
  let group := group_rows name window in
  row_stats (sql_count group) (sql_sum_accessible group)
    (sql_avg_response_time group).

(** The order that [ORDER BY collection_name] establishes between rows. *)
Definition name_le (a b : ProbeResult) : Prop :=
  String.leb (collection_name a) (collection_name b) = true.

(** [r] is a latest row of its collection: no row of the same name has a
    greater timestamp. *)
Definition latest_in (db : Table) (r : ProbeResult) : Prop :=
  In r db /\
  forall r', In r' db -> collection_name r' = collection_name r ->
             ~ str_lt (timestamp r) (timestamp r').

(** ** Example tables *)

(** A row as [check_collection] writes it for a response with status 200,
    its response time the float nearest to [seconds], and for a refused
    connection. *)
Definition row_up (name ts : string) (seconds : Q) : ProbeResult :=
  {| collection_name := name;
     url := "https://example.org/";
     timestamp := ts;
     is_accessible := true;
     status_code := Some 200;
     response_time := Some (float64 seconds);
     content_length := Some 13;
     error_message := None |}.

Definition row_down (name ts : string) : ProbeResult :=
  {| collection_name := name;
     url := "https://example.org/";
     timestamp := ts;
     is_accessible := false;
     status_code := None;
     response_time := None;
     content_length := None;
     error_message := Some "Connection error" |}.

(** Two collections probed in the same microsecond, one of them probed
    again an hour later. *)
Definition table_shared_instant : Table :=
  [ row_up "Europeana" "2024-05-01T10:00:00.000100" (12 # 100);
    row_up "Internet Archive" "2024-05-01T10:00:00.000100" (30 # 100);
    row_down "Europeana" "2024-05-01T11:00:00.000100" ].

(** A server that answers within three milliseconds. *)
Definition world_fast : ProbeWorld :=
  {| now_isoformat := "2024-05-01T10:00:00.000100";
     start_time := 1714557600;
     end_time := float64 (1714557600 + (3 # 1000));
     session_get := fun _ _ => Return (mkResponse 200 "<html></html>") |}.

Definition row_fast : ProbeResult :=
  {| collection_name := "Local Mirror";
     url := "http://localhost:8080/";
     timestamp := "2024-05-01T10:00:00.000100";
     is_accessible := true;
     status_code := Some 200;
     response_time := Some 0%Q;
     content_length := Some 13;
     error_message := None |}.

(** The clock of the examples: the window opens at midnight. *)
Definition since_midnight (hours : Z) : string := "2024-05-01T00:00:00".

(** One collection checked 160 times, 23 of them with success. *)
Definition table_23_of_160 : Table :=
  (repeat (row_up "Europeana" "2024-05-01T10:00:00.000100" (12 # 100)) 23
   ++ repeat (row_down "Europeana" "2024-05-01T11:00:00.000100") 137)%list.




(** ** A monitoring cycle: [run_monitoring_cycle] *)

(** [sum(1 for r in results if r['is_accessible'])]. *)
Definition accessible_count (results : list ProbeResult) : Z :=
  fold_left (fun acc r => if is_accessible r then acc + 1 else acc) results 0.

(** The line [Summary: X/Y collections accessible]. *)
Definition summary_line (results : list ProbeResult) : string :=
  "Summary: " ++ str_int (accessible_count results) ++ "/"
  ++ str_int (Z.of_nat (List.length results)) ++ " collections accessible".

(** One cycle over [targets] along a schedule of the pool:
    [monitor_all_collections()] with its default of five workers, then
    [save_results]; the results are returned with the summary line that is
    printed.  [None] when the schedule is not a complete run. *)
Definition run_monitoring_cycle (targets : list Target)
    (schedule : list Event)
  : Table -> option (outcome (list ProbeResult * string) * Table) :=
  fun db =>
    match monitor_all_collections 5 targets schedule with
    | None => None
    | Some (Raise e) => Some (Raise e, db)
    | Some (Return results) =>
        let (_, db') := save_results results db in
        Some (Return (results, summary_line results), db')
    end.

(** The (name, URL) pairs a state of the pool accounts for. *)
Definition targets_in (s : PoolState) : list Target :=
  (unsubmitted s ++ pending s ++ running s ++ map fst (finished s)
   ++ map (fun r => (collection_name r, url r)) (results s))%list.

(** Every completed future holds a valid result for its own target, and so
    does every result collected. *)
Definition finished_valid (s : PoolState) : Prop :=
  Forall
    (fun f => exists r, snd f = Return r /\ valid_ProbeResult r /\
                        (collection_name r, url r) = fst f)
    (finished s) /\
  Forall valid_ProbeResult (results s).

(** ** The report: [display_status_report] *)

(** [sum(1 for result in current_status if result['is_accessible'])] and
    [len(current_status) - up_count]. *)
Definition up_count (current_status : list Status.t) : Z :=
  fold_left (fun acc s => if Status.is_accessible s then acc + 1 else acc)
    current_status 0.

Definition down_count (current_status : list Status.t) : Z :=
  Z.of_nat (List.length current_status) - up_count current_status.

(** The line [Current Status: X UP, Y DOWN]. *)
Definition status_header (current_status : list Status.t) : string :=
  "Current Status: " ++ str_int (up_count current_status) ++ " UP, "
  ++ str_int (down_count current_status) ++ " DOWN".

(** The marks of the report, as the source spells them. *)
Definition icon_green : string := "ðŸŸ¢".
Definition icon_yellow : string := "ðŸŸ¡".
Definition icon_red : string := "ðŸ”´".

(** [uptime >= 99], then [uptime >= 95], else the last mark. *)
Definition uptime_status (uptime : Q) : string :=
  if Qle_bool 99 uptime then icon_green
  else if Qle_bool 95 uptime then icon_yellow
  else icon_red.

(** ** Sums over the dictionary of statistics *)

Definition sum_total_checks (stats : dict Stats) : Z :=
  fold_left (fun acc entry => acc + total_checks (snd entry)) stats 0.

Definition sum_successful_checks (stats : dict Stats) : Z :=
  fold_left (fun acc entry => acc + successful_checks (snd entry)) stats 0.

(** The dictionary that [get_current_status] builds from a row. *)
Definition status_of_row (row : ProbeResult) : Status.t :=
  Status.mk (collection_name row) (url row) (status_code row)
    (response_time row) (timestamp row) (error_message row)
    (is_accessible row).

(** A server that answers 500 after a quarter of a second. *)
Definition world_error : ProbeWorld :=
  {| now_isoformat := "2024-05-01T12:00:00.000123";
     start_time := 0;
     end_time := 1 # 4;
     session_get := fun _ _ =>
       Return (mkResponse 500 "Internal Server Error") |}.

(** The order of the dictionaries that [get_current_status] returns. *)
Definition status_name_le (a b : Status.t) : Prop :=
  String.leb (Status.collection_name a) (Status.collection_name b) = true.

(** The sum of a list of integers. *)
Definition Zsum (l : list Z) : Z := fold_right Z.add 0 l.

(** A table whose rows all carry different timestamps. *)
Definition table_distinct : Table :=
  [ row_up "Europeana" "2024-05-01T10:00:00.000100" (12 # 100);
    row_up "Internet Archive" "2024-05-01T10:00:00.000250" (30 # 100);
    row_down "Europeana" "2024-05-01T11:00:00.000100" ].
(** ** Properties of the probe *)

Lemma issubclass_Exception (c : exc_class) : issubclass c Exception = true.
Proof. destruct c; reflexivity. Qed.

Lemma check_collection_returns (w : ProbeWorld) (name url : string)
    (timeout : Z) :
  exists r, check_collection w name url timeout = Return r.
Proof.
  unfold check_collection, try_body.
  destruct (session_get w url timeout) as [response | e].
  - eexists; reflexivity.
  - unfold except_clauses.
    destruct (isinstance e Timeout); [eexists; reflexivity |].
    destruct (isinstance e ConnectionError); [eexists; reflexivity |].
    destruct (isinstance e RequestException); [eexists; reflexivity |].
    unfold isinstance; rewrite issubclass_Exception.
    eexists; reflexivity.
Qed.

(** The fields that no [except] clause touches. *)
Lemma except_clauses_fields (e : exc) (result r : ProbeResult) :
  except_clauses e result = Return r ->
  collection_name r = collection_name result /\
  url r = url result /\
  timestamp r = timestamp result /\
  is_accessible r = is_accessible result /\
  status_code r = status_code result /\
  response_time r = response_time result /\
  content_length r = content_length result /\
  exists msg, error_message r = Some msg.
Proof.
  unfold except_clauses.
  destruct (isinstance e Timeout);
    [| destruct (isinstance e ConnectionError);
       [| destruct (isinstance e RequestException);
          [| destruct (isinstance e Exception) ] ] ];
    intros H; inversion H; subst; cbn; eauto 12.
Qed.

Lemma range_test_spec (sc : Z) :
  (200 <=? sc) && (sc <? 400) = true <-> 200 <= sc < 400.
Proof. rewrite andb_true_iff, Z.leb_le, Z.ltb_lt. reflexivity. Qed.

(** The invariant holds of whatever [check_collection] returns. *)
Lemma check_collection_valid (w : ProbeWorld) (name url : string)
    (timeout : Z) (r : ProbeResult) :
  check_collection w name url timeout = Return r -> valid_ProbeResult r.
Proof.
  unfold valid_ProbeResult, status_in_range, check_collection, try_body.
  destruct (session_get w url timeout) as [response | e].
  - destruct response as [sc body]; cbn.
    destruct ((200 <=? sc) && (sc <? 400)) eqn:Hrange; cbn;
      intros H; inversion H; subst; clear H; cbn.
    + apply range_test_spec in Hrange.
      repeat split; eauto; try discriminate.
    + assert (Hout : ~ 200 <= sc < 400).
      { intros Hin. apply range_test_spec in Hin. congruence. }
      repeat split; try discriminate; eauto.
      intros (sc' & Heq & Hin). inversion Heq; subst. contradiction.
  - intros H. apply except_clauses_fields in H; cbn in H.
    destruct H as (_ & _ & _ & Hacc & Hsc & _ & _ & msg & Hmsg).
    rewrite Hacc, Hsc, Hmsg.
    repeat split; try discriminate; eauto.
    intros (sc & Heq & _). discriminate.
Qed.

(** C1.  Every result that [check_collection] returns satisfies the
    invariant of the data model: [is_accessible] holds exactly when
    [status_code] is present and lies in [200, 400), which is exactly when
    [error_message] is [None]; and an inaccessible result carries an
    [error_message]. *)
Theorem check_collection_invariant (w : ProbeWorld) (name url : string)
    (timeout : Z) (r : ProbeResult) :
  check_collection w name url timeout = Return r ->
  (is_accessible r = true <->
     exists sc, status_code r = Some sc /\ 200 <= sc < 400) /\
  ((exists sc, status_code r = Some sc /\ 200 <= sc < 400) <->
     error_message r = None) /\
  (is_accessible r = false -> exists msg, error_message r = Some msg).
Proof.
  intros Hret.
  destruct (check_collection_valid w name url timeout r Hret)
    as (Hacc & Hmsg & Hdown).
  unfold status_in_range in Hacc.
  repeat split; try tauto.
Qed.

Lemma check_collection_invariant_witness :
  exists r,
    check_collection world_ok "Internet Archive" "https://archive.org/" 10
      = Return r /\
    (is_accessible r = true <->
       exists sc, status_code r = Some sc /\ 200 <= sc < 400) /\
    ((exists sc, status_code r = Some sc /\ 200 <= sc < 400) <->
       error_message r = None) /\
    (is_accessible r = false -> exists msg, error_message r = Some msg).
Proof.
  eexists. split; [reflexivity |].
  apply (check_collection_invariant world_ok "Internet Archive"
           "https://archive.org/" 10).
  reflexivity.
Defined.

(** C4.  When [session.get] raises, the failure is classified by the first
    clause that matches, in the order timeout, connection failure, other
    transport failure, anything else; the result is returned with
    [status_code], [response_time] and [content_length] absent and
    [is_accessible] false. *)
Theorem check_collection_failure_classification (w : ProbeWorld)
    (name url : string) (timeout : Z) (e : exc) :
  session_get w url timeout = Raise e ->
  exists r,
    check_collection w name url timeout = Return r /\
    (isinstance e Timeout = true ->
       error_message r = Some "Request timeout") /\
    (isinstance e Timeout = false -> isinstance e ConnectionError = true ->
       error_message r = Some "Connection error") /\
    (isinstance e Timeout = false -> isinstance e ConnectionError = false ->
     isinstance e RequestException = true ->
       error_message r = Some (exc_str e)) /\
    (isinstance e Timeout = false -> isinstance e ConnectionError = false ->
     isinstance e RequestException = false ->
       error_message r = Some ("Unexpected error: " ++ exc_str e)%string) /\
    status_code r = None /\
    response_time r = None /\
    content_length r = None /\
    is_accessible r = false.
Proof.
  intros Hget.
  unfold check_collection, try_body. rewrite Hget.
  unfold except_clauses.
  destruct (isinstance e Timeout) eqn:Ht;
    [| destruct (isinstance e ConnectionError) eqn:Hc;
       [| destruct (isinstance e RequestException) eqn:Hr;
          [| unfold isinstance at 1; rewrite issubclass_Exception ] ] ];
    eexists; (split; [reflexivity |]); cbn;
    repeat split; intros; congruence.
Qed.

Lemma check_collection_failure_classification_witness :
  exists r,
    check_collection world_connect_timeout "Europeana"
      "https://www.europeana.eu/" 10 = Return r /\
    error_message r = Some "Request timeout" /\
    status_code r = None /\ response_time r = None /\
    content_length r = None /\ is_accessible r = false.
Proof.
  destruct (check_collection_failure_classification world_connect_timeout
              "Europeana" "https://www.europeana.eu/" 10
              (mk_exc ConnectTimeout "connect timed out") eq_refl)
    as (r & Hret & Ht & _ & _ & _ & Hsc & Hrt & Hcl & Hacc).
  exists r. repeat split; try assumption.
  apply Ht. reflexivity.
Defined.

(** The result names the target that was probed and the time of the call. *)
Lemma check_collection_target (w : ProbeWorld) (name target_url : string)
    (timeout : Z) (r : ProbeResult) :
  check_collection w name target_url timeout = Return r ->
  collection_name r = name /\ url r = target_url /\
  timestamp r = now_isoformat w.
Proof.
  unfold check_collection, try_body.
  destruct (session_get w target_url timeout) as [[sc body] | e]; cbn.
  - destruct ((200 <=? sc) && (sc <? 400)); cbn;
      intros H; inversion H; subst; cbn; auto.
  - intros H. apply except_clauses_fields in H; cbn in H. tauto.
Qed.

(** C8.  [check_collection] returns on every input and for every behaviour
    of the network, and what it returns is a valid probe result for the
    target it was given. *)
Theorem check_collection_total (w : ProbeWorld)
    (name target_url : string) (timeout : Z) :
  exists r,
    check_collection w name target_url timeout = Return r /\
    valid_ProbeResult r /\
    collection_name r = name /\
    url r = target_url /\
    timestamp r = now_isoformat w.
Proof.
  destruct (check_collection_returns w name target_url timeout) as [r Hr].
  exists r. split; [exact Hr |].
  split.
  - exact (check_collection_valid w name target_url timeout r Hr).
  - exact (check_collection_target w name target_url timeout r Hr).
Qed.

(** ** Properties of the fan-out *)

Lemma remove_nth_length {A : Type} (i : nat) (l : list A) (x : A) :
  nth_error l i = Some x ->
  List.length l = S (List.length (remove_nth i l)).
Proof.
  revert l. induction i as [| i IH]; intros [| y l] H; try discriminate.
  - reflexivity.
  - cbn in H. apply IH in H. unfold remove_nth in *. cbn in *. lia.
Qed.

Lemma remove_nth_perm {A : Type} (i : nat) (l : list A) (x : A) :
  nth_error l i = Some x -> Permutation l (x :: remove_nth i l).
Proof.
  revert l. induction i as [| i IH]; intros [| y l] H; try discriminate.
  - inversion H; subst. reflexivity.
  - cbn in H. apply IH in H. unfold remove_nth in *. cbn.
    rewrite perm_swap. constructor. exact H.
Qed.

Lemma remove_nth_Forall {A : Type} (P : A -> Prop) (i : nat) (l : list A) :
  Forall P l -> Forall P (remove_nth i l).
Proof.
  intros H. unfold remove_nth. apply Forall_app. split.
  - rewrite <- (firstn_skipn i l) in H. apply Forall_app in H. tauto.
  - rewrite <- (firstn_skipn (S i) l) in H. apply Forall_app in H. tauto.
Qed.

(** Moving an element from the head of one block to the end of the next. *)
Lemma perm_move {A : Type} (a : A) (X Y Z : list A) :
  Permutation ((a :: X) ++ Y ++ Z) (X ++ (Y ++ [a]) ++ Z).
Proof.
  cbn. rewrite <- (app_assoc Y). cbn.
  rewrite (app_assoc X Y Z), (app_assoc X Y (a :: Z)).
  apply Permutation_middle.
Qed.

Lemma perm_move_end {A : Type} (a : A) (X Y : list A) :
  Permutation ((a :: X) ++ Y) (X ++ Y ++ [a]).
Proof.
  cbn. rewrite app_assoc. apply Permutation_cons_append.
Qed.

Section Pool.

Variable max_workers : Z.

Lemma step_work_left (ev : Event) (s s' : PoolState) :
  step max_workers ev s = Some s' -> work_left s = S (work_left s').
Proof.
  destruct s as [u p r f rs]. unfold step, work_left; cbn.
  destruct ev as [| | i w | j].
  - destruct u as [| t u]; intros H; inversion H; subst; cbn.
    rewrite length_app; cbn. lia.
  - destruct p as [| t p]; [discriminate |].
    destruct (_ <? _); intros H; inversion H; subst; cbn.
    rewrite length_app; cbn. lia.
  - destruct (nth_error r i) as [[name u'] |] eqn:Hnth; [| discriminate].
    intros H; inversion H; subst; cbn.
    rewrite length_app, (remove_nth_length i r _ Hnth); cbn. lia.
  - destruct u as [| t u]; [| discriminate].
    destruct (nth_error f j) as [[t o] |] eqn:Hnth; [| discriminate].
    destruct (collect_future o rs); intros H; inversion H; subst; cbn.
    rewrite (remove_nth_length j f _ Hnth). lia.
Qed.

Lemma step_names (ev : Event) (s s' : PoolState) :
  finished_ok s -> step max_workers ev s = Some s' ->
  Permutation (names_in s) (names_in s') /\ finished_ok s'.
Proof.
  destruct s as [u p r f rs]. unfold step, names_in, finished_ok; cbn.
  intros Hok. destruct ev as [| | i w | j].
  - destruct u as [| t u]; intros H; inversion H; subst; cbn.
    split; [| exact Hok]. rewrite map_app. apply perm_move.
  - destruct p as [| t p]; [discriminate |].
    destruct (_ <? _); intros H; inversion H; subst; cbn.
    split; [| exact Hok]. rewrite map_app.
    apply Permutation_app_head. apply perm_move.
  - destruct (nth_error r i) as [[name u'] |] eqn:Hnth; [| discriminate].
    intros H; inversion H; subst; cbn. split.
    + do 2 apply Permutation_app_head.
      rewrite (Permutation_map fst (remove_nth_perm i r _ Hnth)).
      rewrite map_app. apply perm_move.
    + apply Forall_app. split; [exact Hok |].
      constructor; [| constructor]. cbn.
      destruct (check_collection_returns w name u' 10) as (x & Hret).
      exists x. split; [exact Hret |].
      apply (check_collection_target w name u' 10 x Hret).
  - destruct u as [| t u]; [| discriminate].
    destruct (nth_error f j) as [[t o] |] eqn:Hnth; [| discriminate].
    assert (Ho : exists x, o = Return x /\ collection_name x = fst t).
    { rewrite Forall_forall in Hok.
      apply (Hok (t, o)). eapply nth_error_In; eassumption. }
    destruct Ho as (x & -> & Hname). cbn.
    intros H; inversion H; subst; cbn. split.
    + do 2 apply Permutation_app_head.
      rewrite (Permutation_map (fun g => fst (fst g))
                 (remove_nth_perm j f _ Hnth)).
      rewrite map_app. cbn [map fst]. rewrite <- Hname.
      apply perm_move_end.
    + apply remove_nth_Forall. exact Hok.
Qed.

Lemma exec_invariant (evs : list Event) (s s' : PoolState) :
  finished_ok s -> exec max_workers evs s = Some s' ->
  (List.length evs + work_left s')%nat = work_left s /\
  Permutation (names_in s) (names_in s') /\ finished_ok s'.
Proof.
  revert s. induction evs as [| ev evs IH]; intros s Hok; cbn [exec].
  - intros H; inversion H; subst. auto.
  - destruct (step max_workers ev s) as [s1 |] eqn:Hstep; [| discriminate].
    intros Hexec.
    destruct (step_names ev s s1 Hok Hstep) as [Hperm Hok1].
    destruct (IH s1 Hok1 Hexec) as (Hlen & Hperm' & Hok').
    rewrite (step_work_left ev s s1 Hstep).
    repeat split; [cbn [List.length]; lia | | exact Hok'].
    etransitivity; eassumption.
Qed.

Lemma exec_app (evs evs' : list Event) (s s' : PoolState) :
  exec max_workers evs s = Some s' ->
  exec max_workers (evs ++ evs') s = exec max_workers evs' s'.
Proof.
  revert s. induction evs as [| ev evs IH]; intros s; cbn.
  - intros H; inversion H; reflexivity.
  - destruct (step max_workers ev s); [apply IH | discriminate].
Qed.

Hypothesis workers_positive : 1 <= max_workers.

(** With at least one worker, some event is enabled until all is done. *)
Lemma step_progress (s : PoolState) :
  finished_ok s -> all_done s = false ->
  exists ev s', step max_workers ev s = Some s'.
Proof.
  destruct s as [u p r f rs]. unfold finished_ok, all_done; cbn.
  intros Hok Hnot.
  destruct u as [| t u].
  - destruct f as [| [t o] f].
    + destruct r as [| [name u'] r].
      * destruct p as [| t p]; [discriminate |].
        exists Start. cbn.
        destruct (0 <? max_workers) eqn:Hk; [eauto |].
        apply Z.ltb_ge in Hk. lia.
      * exists (Finish 0 world_down). cbn. eauto.
    + inversion Hok as [| ? ? (x & Hx & _) _]; subst. cbn in Hx; subst.
      exists (Collect 0). cbn. eauto.
  - exists Submit. cbn. eauto.
Qed.

(** Every state that a run reaches can be run to completion. *)
Lemma exec_completes (n : nat) (s : PoolState) :
  finished_ok s -> work_left s = n ->
  exists evs s', exec max_workers evs s = Some s' /\ all_done s' = true.
Proof.
  revert s. induction n as [| n IH]; intros s Hok Hwork.
  - exists [], s. split; [reflexivity |].
    destruct s as [[| ? ?] [| ? ?] [| ? ?] [| ? ?] rs];
      unfold work_left in Hwork; cbn in Hwork; try lia. reflexivity.
  - destruct (all_done s) eqn:Hdone.
    + exists [], s. auto.
    + destruct (step_progress s Hok Hdone) as (ev & s1 & Hstep).
      destruct (step_names ev s s1 Hok Hstep) as [_ Hok1].
      apply step_work_left in Hstep as Hw.
      destruct (IH s1 Hok1 ltac:(lia)) as (evs & s' & Hexec & Hd).
      exists (ev :: evs), s'. cbn. rewrite Hstep. auto.
Qed.

End Pool.

Lemma all_done_names (s : PoolState) :
  all_done s = true -> names_in s = map collection_name (results s).
Proof.
  destruct s as [[| ? ?] [| ? ?] [| ? ?] [| ? ?] rs]; try discriminate.
  reflexivity.
Qed.

(** C3.  With a concurrency bound of at least one, whenever
    [monitor_all_collections] returns it returns as many results as there
    are targets, one for each target name, whatever the probes did; the run
    is never cut short and never hangs: every run of the pool, however far
    it got, has taken at most four events for each target (submit, start,
    finish, collect) and extends to a complete run, which takes exactly
    that many. *)
Theorem monitor_all_collections_complete (max_workers : Z)
    (collections : list Target) :
  1 <= max_workers ->
  (forall schedule out,
      monitor_all_collections max_workers collections schedule = Some out ->
      exists rs,
        out = Return rs /\
        List.length rs = List.length collections /\
        Permutation (map collection_name rs) (map fst collections) /\
        List.length schedule = (4 * List.length collections)%nat) /\
  (forall evs s,
      exec max_workers evs (mkPoolState collections [] [] [] []) = Some s ->
      (List.length evs <= 4 * List.length collections)%nat /\
      exists evs',
        monitor_all_collections max_workers collections (evs ++ evs')%list
        <> None).
Proof.
  intros Hk.
  assert (Hstart : pool_start max_workers collections
                   = Return (mkPoolState collections [] [] [] [])).
  { unfold pool_start. destruct (max_workers <=? 0) eqn:H; [| reflexivity].
    apply Z.leb_le in H. lia. }
  assert (Hok0 : finished_ok (mkPoolState collections [] [] [] [])).
  { constructor. }
  split.
  - intros schedule out. unfold monitor_all_collections. rewrite Hstart.
    destruct (exec max_workers schedule _) as [s |] eqn:Hexec; [| discriminate].
    destruct (all_done s) eqn:Hdone; [| discriminate].
    intros H; inversion H; subst; clear H.
    destruct (exec_invariant max_workers schedule _ s Hok0 Hexec)
      as (Hlen & Hperm & _).
    rewrite (all_done_names s Hdone) in Hperm.
    unfold names_in in Hperm; cbn in Hperm. rewrite app_nil_r in Hperm.
    exists (results s). split; [reflexivity |].
    assert (Hcount : List.length (results s) = List.length collections).
    { apply Permutation_length in Hperm.
      rewrite !length_map in Hperm. symmetry. exact Hperm. }
    repeat split.
    + exact Hcount.
    + symmetry. exact Hperm.
    + destruct s as [[| ? ?] [| ? ?] [| ? ?] [| ? ?] rs]; try discriminate.
      unfold work_left in Hlen; cbn in Hlen. lia.
  - intros evs s Hexec.
    destruct (exec_invariant max_workers evs _ s Hok0 Hexec)
      as (Hlen & _ & Hok).
    split.
    { unfold work_left in Hlen at 2; cbn in Hlen. lia. }
    destruct (exec_completes max_workers Hk (work_left s) s Hok eq_refl)
      as (evs' & s' & Hexec' & Hdone).
    exists evs'. unfold monitor_all_collections. rewrite Hstart.
    rewrite (exec_app max_workers evs evs' _ s Hexec), Hexec', Hdone.
    discriminate.
Qed.

Lemma monitor_all_collections_complete_witness :
  exists rs,
    monitor_all_collections 5 collections schedule_all_down
    = Some (Return rs) /\
    List.length rs = 15%nat /\
    Permutation (map collection_name rs) (map fst collections).
Proof.
  destruct (monitor_all_collections_complete 5 collections ltac:(lia))
    as [Hall _].
  destruct (monitor_all_collections 5 collections schedule_all_down)
    as [out |] eqn:Hrun; [| vm_compute in Hrun; discriminate].
  destruct (Hall _ out Hrun) as (rs & Hout & Hlen & Hperm & _).
  exists rs. rewrite <- Hout. repeat split; assumption.
Defined.

(** ** The byte order on text *)

Lemma str_compare_refl (s : string) : String.compare s s = Eq.
Proof.
  induction s as [| c s IH]; cbn; [reflexivity |].
  unfold Ascii.compare. rewrite N.compare_refl. exact IH.
Qed.

Lemma str_compare_eq (a b : string) : String.compare a b = Eq <-> a = b.
Proof.
  split; [apply String.compare_eq_iff | intros ->; apply str_compare_refl].
Qed.

Lemma str_compare_gt_lt (a b : string) :
  String.compare a b = Gt <-> str_lt b a.
Proof.
  unfold str_lt. rewrite (String.compare_antisym a b).
  destruct (String.compare b a); cbn; split; congruence.
Qed.

Lemma str_lt_irrefl (s : string) : ~ str_lt s s.
Proof. unfold str_lt. rewrite str_compare_refl. discriminate. Qed.

Lemma str_lt_trans (a b c : string) : str_lt a b -> str_lt b c -> str_lt a c.
Proof.
  unfold str_lt. revert b c.
  induction a as [| x a IH]; intros [| y b] [| z c]; cbn;
    try discriminate; try reflexivity.
  unfold Ascii.compare.
  destruct (N.compare_spec (N_of_ascii x) (N_of_ascii y))
    as [Hxy | Hxy | Hxy];
    try discriminate;
    destruct (N.compare_spec (N_of_ascii y) (N_of_ascii z))
      as [Hyz | Hyz | Hyz];
    try discriminate; intros H1 H2.
  - rewrite Hxy, Hyz, N.compare_refl. eapply IH; eassumption.
  - rewrite Hxy. apply N.compare_lt_iff in Hyz. rewrite Hyz. reflexivity.
  - rewrite <- Hyz. apply N.compare_lt_iff in Hxy. rewrite Hxy. reflexivity.
  - assert (Hxz : (N_of_ascii x < N_of_ascii z)%N) by lia.
    apply N.compare_lt_iff in Hxz. rewrite Hxz. reflexivity.
Qed.

Lemma str_lt_asym (a b : string) : str_lt a b -> ~ str_lt b a.
Proof.
  intros H1 H2. exact (str_lt_irrefl a (str_lt_trans a b a H1 H2)).
Qed.

Lemma str_ltb_lt (a b : string) : String.ltb a b = true <-> str_lt a b.
Proof.
  unfold String.ltb, str_lt.
  destruct (String.compare a b); split; congruence.
Qed.

(** Two strictly ascending lists with the same elements are equal. *)
Lemma sorted_same_elements (l1 l2 : list string) :
  StronglySorted str_lt l1 -> StronglySorted str_lt l2 ->
  (forall x, In x l1 <-> In x l2) -> l1 = l2.
Proof.
  revert l2. induction l1 as [| a l1 IH]; intros [| b l2] S1 S2 Hin.
  - reflexivity.
  - destruct (proj2 (Hin b) (or_introl eq_refl)).
  - destruct (proj1 (Hin a) (or_introl eq_refl)).
  - apply StronglySorted_inv in S1 as [S1 F1].
    apply StronglySorted_inv in S2 as [S2 F2].
    rewrite Forall_forall in F1, F2.
    assert (Hab : a = b).
    { destruct (proj1 (Hin a) (or_introl eq_refl)) as [E | Ia]; [auto |].
      destruct (proj2 (Hin b) (or_introl eq_refl)) as [E | Ib]; [auto |].
      destruct (str_lt_asym _ _ (F1 _ Ib) (F2 _ Ia)). }
    subst b. f_equal. apply IH; try assumption.
    intros x. split; intros Hx.
    + destruct (proj1 (Hin x) (or_intror Hx)) as [E | Ix]; [| exact Ix].
      subst x. destruct (str_lt_irrefl _ (F1 _ Hx)).
    + destruct (proj2 (Hin x) (or_intror Hx)) as [E | Ix]; [| exact Ix].
      subst x. destruct (str_lt_irrefl _ (F2 _ Hx)).
Qed.

Lemma sorted_NoDup (l : list string) : StronglySorted str_lt l -> NoDup l.
Proof.
  induction 1 as [| a l S IH F]; constructor; [| exact IH].
  intros Hin. rewrite Forall_forall in F.
  exact (str_lt_irrefl a (F a Hin)).
Qed.

(** ** The SQL building blocks *)

Lemma insert_name_In (n x : string) (l : list string) :
  In x (insert_name n l) <-> x = n \/ In x l.
Proof.
  induction l as [| m l IH]; cbn.
  - intuition congruence.
  - destruct (String.compare n m) eqn:Hc; cbn.
    + apply str_compare_eq in Hc. subst m. intuition congruence.
    + intuition congruence.
    + rewrite IH. intuition congruence.
Qed.

Lemma insert_name_sorted (n : string) (l : list string) :
  StronglySorted str_lt l -> StronglySorted str_lt (insert_name n l).
Proof.
  induction 1 as [| m l S IH F]; cbn.
  - repeat constructor.
  - destruct (String.compare n m) eqn:Hc.
    + constructor; assumption.
    + constructor; [constructor; assumption |].
      constructor; [exact Hc |].
      eapply Forall_impl; [| exact F].
      intros y Hy. eapply str_lt_trans; eassumption.
    + constructor; [exact IH |].
      rewrite Forall_forall in *. intros y Hy.
      apply insert_name_In in Hy as [-> | Hy]; [| auto].
      apply str_compare_gt_lt. exact Hc.
Qed.

Lemma group_keys_sorted (rows : list ProbeResult) :
  StronglySorted str_lt (group_keys rows).
Proof.
  unfold group_keys. induction rows as [| r rows IH]; cbn.
  - constructor.
  - apply insert_name_sorted. exact IH.
Qed.

Lemma group_keys_In (rows : list ProbeResult) (x : string) :
  In x (group_keys rows) <-> exists r, In r rows /\ collection_name r = x.
Proof.
  unfold group_keys. induction rows as [| r rows IH]; cbn.
  - split; [tauto | intros (r & [] & _)].
  - rewrite insert_name_In, IH. split.
    + intros [-> | (r' & Hin & Hn)]; eauto.
    + intros (r' & [-> | Hin] & Hn); eauto.
Qed.

Lemma group_rows_In (name : string) (rows : list ProbeResult)
    (r : ProbeResult) :
  In r (group_rows name rows) <-> In r rows /\ collection_name r = name.
Proof.
  unfold group_rows. rewrite filter_In, String.eqb_eq. reflexivity.
Qed.

Lemma group_rows_nonempty (name : string) (rows : list ProbeResult) :
  (exists r, In r rows /\ collection_name r = name) <->
  (1 <= sql_count (group_rows name rows)).
Proof.
  unfold sql_count. split.
  - intros (r & Hin & Hn).
    assert (H : In r (group_rows name rows)) by (apply group_rows_In; auto).
    destruct (group_rows name rows); [destruct H | cbn; lia].
  - intros H. destruct (group_rows name rows) as [| r g] eqn:Hg;
      [cbn in H; lia |].
    exists r. apply group_rows_In. rewrite Hg. left. reflexivity.
Qed.

Lemma sql_sum_accessible_count (rows : list ProbeResult) :
  sql_sum_accessible rows = Z.of_nat (List.length (filter is_accessible rows)).
Proof.
  unfold sql_sum_accessible.
  assert (H : forall acc,
             fold_left (fun a r => a + (if is_accessible r then 1 else 0))
               rows acc
             = acc + Z.of_nat (List.length (filter is_accessible rows))).
  { induction rows as [| r rows IH]; intros acc; cbn.
    - lia.
    - rewrite IH. destruct (is_accessible r); cbn [List.length]; lia. }
  rewrite H. lia.
Qed.

Lemma filter_length_le {A : Type} (f : A -> bool) (l : list A) :
  (List.length (filter f l) <= List.length l)%nat.
Proof.
  induction l as [| a l IH]; cbn; [lia |].
  destruct (f a); cbn; lia.
Qed.


(** ** What [get_current_status] does guarantee *)

Lemma str_leb_not_gt (a b : string) : String.leb a b = true <-> ~ str_lt b a.
Proof.
  unfold String.leb. rewrite <- str_compare_gt_lt.
  destruct (String.compare a b); split; congruence.
Qed.

Lemma str_trichotomy (a b : string) : ~ str_lt a b -> ~ str_lt b a -> a = b.
Proof.
  unfold str_lt at 1. intros Hab Hba. rewrite <- str_compare_gt_lt in Hba.
  apply str_compare_eq.
  destruct (String.compare a b); congruence.
Qed.

Lemma str_leb_trans (a b c : string) :
  String.leb a b = true -> String.leb b c = true -> String.leb a c = true.
Proof.
  rewrite !str_leb_not_gt. intros Hab Hbc Hca.
  destruct (String.compare a b) eqn:E.
  - apply str_compare_eq in E. subst b. contradiction.
  - apply Hbc. eapply str_lt_trans; eassumption.
  - apply str_compare_gt_lt in E. contradiction.
Qed.

Lemma insert_row_perm (r : ProbeResult) (l : list ProbeResult) :
  Permutation (r :: l) (insert_row r l).
Proof.
  induction l as [| x l IH]; cbn; [reflexivity |].
  destruct (String.leb _ _); [reflexivity |].
  rewrite perm_swap. constructor. exact IH.
Qed.

Lemma order_by_perm (rows : list ProbeResult) :
  Permutation rows (order_by_collection_name rows).
Proof.
  unfold order_by_collection_name.
  induction rows as [| r rows IH]; cbn; [constructor |].
  rewrite <- insert_row_perm. constructor. exact IH.
Qed.

Lemma insert_row_sorted (r : ProbeResult) (l : list ProbeResult) :
  StronglySorted name_le l -> StronglySorted name_le (insert_row r l).
Proof.
  induction 1 as [| x l S IH F]; cbn.
  - repeat constructor.
  - destruct (String.leb (collection_name r) (collection_name x)) eqn:E.
    + constructor; [constructor; assumption |].
      constructor; [exact E |].
      eapply Forall_impl; [| exact F].
      intros y Hy. unfold name_le in *. eapply str_leb_trans; eassumption.
    + constructor; [exact IH |].
      rewrite Forall_forall in *. intros y Hy.
      apply (Permutation_in _ (Permutation_sym (insert_row_perm r l))) in Hy.
      destruct Hy as [<- | Hy]; [| auto].
      unfold name_le.
      destruct (String.leb_total (collection_name x) (collection_name r));
        congruence.
Qed.

Lemma order_by_sorted (rows : list ProbeResult) :
  StronglySorted name_le (order_by_collection_name rows).
Proof.
  unfold order_by_collection_name.
  induction rows as [| r rows IH]; cbn; [constructor |].
  apply insert_row_sorted. exact IH.
Qed.

Lemma str_max_cases (a b : string) :
  (str_max a b = a /\ ~ str_lt a b) \/ (str_max a b = b /\ str_lt a b).
Proof.
  unfold str_max.
  destruct (String.ltb a b) eqn:E.
  - right. split; [reflexivity | apply str_ltb_lt; exact E].
  - left. split; [reflexivity |]. rewrite <- str_ltb_lt. congruence.
Qed.

(** The running maximum is one of the values and no value exceeds it. *)
Lemma fold_str_max_spec (l : list string) (init : string) :
  let m := fold_left str_max l init in
  In m (init :: l) /\ forall x, In x (init :: l) -> ~ str_lt m x.
Proof.
  revert init. induction l as [| y l IH]; intros init; cbn.
  - split; [left; reflexivity |].
    intros x [<- | []]. apply str_lt_irrefl.
  - destruct (IH (str_max init y)) as [Hin Hub]. cbn in Hin, Hub.
    destruct (str_max_cases init y) as [[E Hle] | [E Hlt]]; rewrite E in *.
    + split; [tauto |].
      intros x [<- | [<- | Hx]]; auto.
      intros Hm. apply Hle. eapply str_lt_trans; [| exact Hm].
      destruct (String.compare init (fold_left str_max l init)) eqn:C.
      * apply str_compare_eq in C. rewrite <- C in Hm. contradiction.
      * exact C.
      * apply str_compare_gt_lt in C. destruct (Hub init (or_introl eq_refl) C).
    + split; [tauto |].
      intros x [<- | [<- | Hx]]; auto.
      intros Hm. apply (Hub y (or_introl eq_refl)).
      eapply str_lt_trans; eassumption.
Qed.

Lemma sql_max_timestamp_spec (g : list ProbeResult) (r : ProbeResult) :
  In r g ->
  exists m, sql_max_timestamp g = Some m /\
            In m (map timestamp g) /\
            forall x, In x g -> ~ str_lt m (timestamp x).
Proof.
  destruct g as [| r0 g]; [intros [] |]. intros _. cbn.
  destruct (fold_str_max_spec (map timestamp g) (timestamp r0)) as [Hin Hub].
  eexists. split; [reflexivity |]. split; [exact Hin |].
  intros x Hx. apply Hub.
  change (In (timestamp x) (map timestamp (r0 :: g))).
  apply in_map. exact Hx.
Qed.

Lemma sql_in_spec (x : string) (values : list (option string)) :
  sql_in x values = true <-> In (Some x) values.
Proof.
  unfold sql_in. rewrite existsb_exists. split.
  - intros ([y |] & Hin & Heq); [| discriminate].
    apply String.eqb_eq in Heq. subst y. exact Hin.
  - intros Hin. exists (Some x). split; [exact Hin | apply String.eqb_refl].
Qed.

(** The rows returned are rows of the table, in ascending order of
    collection name, and every latest row of a collection is among them. *)
Lemma current_status_query_sound (db : Table) :
  StronglySorted name_le (current_status_query db) /\
  (forall r, In r (current_status_query db) -> In r db) /\
  (forall r, latest_in db r -> In r (current_status_query db)).
Proof.
  unfold current_status_query. split; [apply order_by_sorted |]. split.
  - intros r Hr.
    apply (Permutation_in _ (Permutation_sym (order_by_perm _))) in Hr.
    apply filter_In in Hr. tauto.
  - intros r [Hin Hlatest].
    apply (Permutation_in _ (order_by_perm _)).
    apply filter_In. split; [exact Hin |].
    apply sql_in_spec. unfold max_timestamps. apply in_map_iff.
    exists (collection_name r). split.
    + assert (Hg : In r (group_rows (collection_name r) db))
        by (apply group_rows_In; auto).
      destruct (sql_max_timestamp_spec _ r Hg) as (m & Hm & Hmem & Hub).
      rewrite Hm. f_equal.
      apply in_map_iff in Hmem as (r' & <- & Hr').
      apply group_rows_In in Hr' as [Hr'db Hname].
      apply str_trichotomy; [apply Hub; exact Hg |].
      apply Hlatest; assumption.
    + apply group_keys_In. eauto.
Qed.

(** ** The dictionary built by [get_uptime_stats] *)

Lemma dict_set_fresh {V : Type} (d : dict V) (k : string) (v : V) :
  ~ In k (map fst d) -> dict_set d k v = (d ++ [(k, v)])%list.
Proof.
  induction d as [| [k' v'] d IH]; cbn; intros Hk; [reflexivity |].
  destruct (String.eqb_spec k' k) as [-> | _]; [tauto |].
  rewrite IH; tauto.
Qed.

Lemma dict_get_keys_in {V : Type} (F : string -> V) (keys : list string)
    (k : string) :
  In k keys -> dict_get (map (fun n => (n, F n)) keys) k = Some (F k).
Proof.
  induction keys as [| n keys IH]; cbn; [tauto |].
  destruct (String.eqb_spec n k) as [-> | Hne]; [reflexivity |].
  intros [Heq | Hin]; [congruence | exact (IH Hin)].
Qed.

Lemma dict_get_keys_out {V : Type} (F : string -> V) (keys : list string)
    (k : string) :
  ~ In k keys -> dict_get (map (fun n => (n, F n)) keys) k = None.
Proof.
  induction keys as [| n keys IH]; cbn; [reflexivity |].
  destruct (String.eqb_spec n k) as [-> | Hne]; [tauto |].
  intros Hout. apply IH. tauto.
Qed.

Lemma stats_fold (T S : string -> Z) (A : string -> option Q)
    (keys : list string) (d : dict Stats) :
  NoDup keys -> (forall k, In k keys -> ~ In k (map fst d)) ->
  fold_left
    (fun stats (row : string * Z * Z * option Q) =>
       match row with
       | (collection_name, total, successful, avg_time) =>
           dict_set stats collection_name (row_stats total successful avg_time)
       end)
    (map (fun n => (n, T n, S n, A n)) keys) d
  = (d ++ map (fun n => (n, row_stats (T n) (S n) (A n))) keys)%list.
Proof.
  revert d. induction keys as [| n keys IH]; intros d Hnd Hfresh; cbn.
  - rewrite app_nil_r. reflexivity.
  - inversion Hnd as [| ? ? Hn Hnd']; subst.
    rewrite dict_set_fresh by (apply Hfresh; left; reflexivity).
    rewrite IH; [rewrite <- app_assoc; reflexivity | exact Hnd' |].
    intros k Hk. rewrite map_app, in_app_iff; cbn.
    intros [Hin | [<- | []]]; [| contradiction].
    exact (Hfresh k (or_intror Hk) Hin).
Qed.

(** The dictionary has one entry for each name of the window, ascending. *)
Lemma get_uptime_stats_entries (since_time_of : Z -> string) (hours : Z)
    (db : Table) :
  fst (get_uptime_stats since_time_of hours db)
  = map (fun name =>
           (name, group_stats name (window_rows (since_time_of hours) db)))
      (group_keys (window_rows (since_time_of hours) db)).
Proof.
  unfold get_uptime_stats, uptime_query, group_stats; cbn [fst].
  rewrite (stats_fold
             (fun n => sql_count (group_rows n _))
             (fun n => sql_sum_accessible (group_rows n _))
             (fun n => sql_avg_response_time (group_rows n _))).
  - reflexivity.
  - apply sorted_NoDup, group_keys_sorted.
  - intros k _ [].
Qed.


Lemma count_total_group (since_time : string) (db : Table) (name : string) :
  sql_count (group_rows name (window_rows since_time db))
  = count_total since_time db name.
Proof. reflexivity. Qed.

Lemma count_accessible_group (since_time : string) (db : Table)
    (name : string) :
  sql_sum_accessible (group_rows name (window_rows since_time db))
  = count_accessible since_time db name.
Proof. apply sql_sum_accessible_count. Qed.

Lemma key_iff_checked (since_time : string) (db : Table) (name : string) :
  In name (group_keys (window_rows since_time db)) <->
  1 <= count_total since_time db name.
Proof.
  rewrite group_keys_In, group_rows_nonempty. reflexivity.
Qed.

Lemma count_accessible_le (since_time : string) (db : Table) (name : string) :
  0 <= count_accessible since_time db name <= count_total since_time db name.
Proof.
  unfold count_accessible, count_total.
  pose proof (filter_length_le is_accessible
                (checks_in_window since_time db name)).
  lia.
Qed.

(** ** Rounding *)

Lemma round_half_even_bounds (y : Q) (bound : Z) :
  (0 <= y)%Q -> (y <= inject_Z bound)%Q ->
  0 <= round_half_even y <= bound.
Proof.
  destruct y as [n d].
  unfold Qle, round_half_even; cbn [Qnum Qden inject_Z]. intros H0 Hb.
  rewrite Z.mul_1_r in H0, Hb. rewrite Z.mul_0_l in H0.
  set (q := n / Zpos d). set (r := n mod Zpos d).
  assert (Hd : 0 < Zpos d) by lia.
  assert (Hdm : n = Zpos d * q + r) by (apply Z.div_mod; lia).
  assert (Hr : 0 <= r < Zpos d) by (apply Z.mod_pos_bound; exact Hd).
  assert (Hq0 : 0 <= q) by (apply Z.div_pos; lia).
  assert (Hqb : q <= bound) by (apply Z.div_le_upper_bound; nia).
  destruct (2 * r <? Zpos d) eqn:Hlow; [lia |].
  apply Z.ltb_ge in Hlow.
  assert (Hlt : q < bound).
  { destruct (Z.eq_dec q bound) as [E | NE]; [| lia]. nia. }
  destruct (Zpos d <? 2 * r); [lia |].
  destruct (Z.even q); lia.
Qed.

(** Equal rationals round to the same float. *)
Lemma float64_proper (x y : Q) : (x == y)%Q -> float64 x = float64 y.
Proof.
  intros H. unfold float64. rewrite (Qred_complete x y H). reflexivity.
Qed.

Lemma pow2_nonneg (k : Z) : 0 <= k -> pow2 k = inject_Z (2 ^ k).
Proof.
  intros H. unfold pow2. destruct (0 <=? k) eqn:E; [reflexivity |].
  apply Z.leb_gt in E. lia.
Qed.

Lemma pow2_nonpos (k : Z) :
  k <= 0 -> (pow2 k == / inject_Z (2 ^ (- k)))%Q.
Proof.
  intros H. unfold pow2. destruct (0 <=? k) eqn:E.
  - apply Z.leb_le in E. assert (k = 0) by lia. subst k. reflexivity.
  - reflexivity.
Qed.

Lemma pow2_pos (k : Z) : (0 < pow2 k)%Q.
Proof.
  assert (H : forall j, 0 <= j -> (0 < inject_Z (2 ^ j))%Q).
  { intros j Hj. change 0%Q with (inject_Z 0). rewrite <- Zlt_Qlt.
    apply Z.pow_pos_nonneg; lia. }
  unfold pow2. destruct (0 <=? k) eqn:E.
  - apply H. apply Z.leb_le. exact E.
  - apply Qinv_lt_0_compat, H. apply Z.leb_gt in E. lia.
Qed.

Lemma round_half_even_nonneg (y : Q) : (0 <= y)%Q -> 0 <= round_half_even y.
Proof.
  intros H0.
  apply (round_half_even_bounds y (Qnum y) H0).
  destruct y as [n d]. unfold Qle in *; cbn [Qnum Qden inject_Z] in *.
  nia.
Qed.

(** Rounding to a float does not change the sign. *)
Lemma float64_nonneg (x : Q) : (0 <= x)%Q -> (0 <= float64 x)%Q.
Proof.
  intros H0. unfold float64. rewrite <- (Qred_correct x) in H0.
  destruct (Qeq_bool (Qred x) 0); [apply Qle_refl |]. cbn zeta.
  rewrite Qred_correct.
  apply Qmult_le_0_compat; [| apply Qlt_le_weak, pow2_pos].
  change 0%Q with (inject_Z 0). rewrite <- Zle_Qle.
  apply round_half_even_nonneg.
  apply Qmult_le_0_compat; [exact H0 | apply Qlt_le_weak, pow2_pos].
Qed.

(** The binade of a number below an integer [B] is at most one more than
    that of [B]. *)
Lemma binade_upper (x : Q) (B : Z) :
  (0 <= x)%Q -> (x <= inject_Z B)%Q -> 0 < B ->
  binade x <= Z.log2 B + 1.
Proof.
  destruct x as [n d]. unfold Qle, binade; cbn [Qnum Qden inject_Z].
  rewrite Z.mul_0_l, !Z.mul_1_r. intros Hn Hb HB.
  rewrite Z.abs_eq by exact Hn.
  assert (He0 : Z.log2 n - Z.log2 (Zpos d) <= Z.log2 B + 1).
  { assert (H1 : Z.log2 n <= Z.log2 (B * Zpos d))
      by (apply Z.log2_le_mono; exact Hb).
    assert (H2 : Z.log2 (B * Zpos d) <= Z.log2 B + Z.log2 (Zpos d) + 1)
      by (apply Z.log2_mul_above; lia).
    lia. }
  destruct (Qle_bool _ _); lia.
Qed.

(** Rounding to a float keeps a number between zero and an integer that
    is itself a float. *)
Lemma float64_bounds (x : Q) (B : Z) :
  (0 <= x)%Q -> (x <= inject_Z B)%Q -> 0 < B < 2 ^ 51 ->
  (0 <= float64 x)%Q /\ (float64 x <= inject_Z B)%Q.
Proof.
  intros H0 Hb HB. unfold float64.
  pose proof (Qred_correct x) as Hred.
  set (x' := Qred x) in *.
  rewrite <- Hred in H0, Hb.
  destruct (Qeq_bool x' 0).
  - split; [apply Qle_refl |].
    change 0%Q with (inject_Z 0). rewrite <- Zle_Qle. lia.
  - cbn zeta.
    set (q := Z.max (binade x' - 52) (-1074)).
    assert (Hq : q <= 0).
    { pose proof (binade_upper x' B H0 Hb ltac:(lia)) as He.
      assert (Z.log2 B < 51) by (apply Z.log2_lt_pow2; lia).
      unfold q. lia. }
    set (P := 2 ^ (- q)).
    assert (HP : 0 < P) by (apply Z.pow_pos_nonneg; lia).
    assert (HPq : (0 < inject_Z P)%Q).
    { change 0%Q with (inject_Z 0). rewrite <- Zlt_Qlt. exact HP. }
    assert (Hm : 0 <= round_half_even (x' * pow2 (- q)) <= B * P).
    { rewrite (pow2_nonneg (- q)) by lia. fold P.
      apply round_half_even_bounds.
      - apply Qmult_le_0_compat; [exact H0 | apply Qlt_le_weak; exact HPq].
      - rewrite inject_Z_mult.
        apply Qmult_le_compat_r; [exact Hb | apply Qlt_le_weak; exact HPq]. }
    set (m := round_half_even (x' * pow2 (- q))) in *.
    rewrite Qred_correct, (pow2_nonpos q Hq). fold P.
    change (inject_Z m * / inject_Z P)%Q with (inject_Z m / inject_Z P)%Q.
    split.
    + apply Qle_shift_div_l; [exact HPq |].
      rewrite Qmult_0_l. change 0%Q with (inject_Z 0).
      rewrite <- Zle_Qle. lia.
    + apply Qle_shift_div_r; [exact HPq |].
      rewrite <- inject_Z_mult, <- Zle_Qle. lia.
Qed.

Lemma round2_bounds (x : Q) :
  (0 <= x)%Q -> (x <= 100)%Q -> (0 <= round2 x)%Q /\ (round2 x <= 100)%Q.
Proof.
  intros H0 H100.
  assert (Hy0 : (0 <= x * 100)%Q).
  { apply Qmult_le_0_compat; [exact H0 | discriminate]. }
  assert (Hyb : (x * 100 <= inject_Z 10000)%Q).
  { setoid_replace (inject_Z 10000) with (100 * 100)%Q by reflexivity.
    apply Qmult_le_compat_r; [exact H100 | discriminate]. }
  pose proof (round_half_even_bounds (x * 100) 10000 Hy0 Hyb) as Hb.
  unfold round2.
  apply (float64_bounds _ 100); [| | lia].
  - apply Qle_shift_div_l; [reflexivity |].
    rewrite Qmult_0_l. change 0%Q with (inject_Z 0).
    rewrite <- Zle_Qle. lia.
  - apply Qle_shift_div_r; [reflexivity |].
    change (inject_Z 100 * 100)%Q with (inject_Z 10000).
    rewrite <- Zle_Qle. lia.
Qed.

(** The percentage that the loop body computes from the counts of a group
    lies between 0 and 100, before and after [round]. *)
Lemma ratio_bounds (s n : Z) :
  0 <= s <= n -> 1 <= n ->
  (0 <= float_mul (int_truediv s n) 100)%Q /\
  (float_mul (int_truediv s n) 100 <= 100)%Q.
Proof.
  intros Hs Hn.
  assert (Hpos : (0 < inject_Z n)%Q).
  { change 0%Q with (inject_Z 0). rewrite <- Zlt_Qlt. lia. }
  assert (H0 : (0 <= inject_Z s / inject_Z n)%Q).
  { apply Qle_shift_div_l; [exact Hpos |].
    rewrite Qmult_0_l. change 0%Q with (inject_Z 0).
    rewrite <- Zle_Qle. lia. }
  assert (H1 : (inject_Z s / inject_Z n <= inject_Z 1)%Q).
  { apply Qle_shift_div_r; [exact Hpos |].
    rewrite Qmult_1_l, <- Zle_Qle. lia. }
  destruct (float64_bounds _ 1 H0 H1 ltac:(lia)) as [Hq0 Hq1].
  fold (int_truediv s n) in Hq0, Hq1.
  unfold float_mul.
  apply (float64_bounds _ 100); [| | lia].
  - apply Qmult_le_0_compat; [exact Hq0 | discriminate].
  - setoid_replace (inject_Z 100) with (1 * 100)%Q by reflexivity.
    apply Qmult_le_compat_r; [exact Hq1 | discriminate].
Qed.

(** [round(x, 2)] is the float nearest to a whole number of hundredths. *)
Lemma round2_hundredths (x : Q) :
  round2 x = float64 (round_half_even (x * 100) # 100).
Proof.
  unfold round2. apply float64_proper.
  unfold Qeq, Qdiv, Qmult, Qinv, inject_Z; cbn. lia.
Qed.

(** The percentage of a group all of whose checks succeeded, and of one
    none of whose checks did. *)
Lemma uptime_all (N : Z) :
  1 <= N -> round2 (float_mul (int_truediv N N) 100) = 100%Q.
Proof.
  intros HN. unfold int_truediv.
  rewrite (float64_proper (inject_Z N / inject_Z N) 1).
  - vm_compute. reflexivity.
  - unfold Qdiv. apply Qmult_inv_r. unfold Qeq, inject_Z; cbn. lia.
Qed.

Lemma uptime_none (N : Z) :
  round2 (float_mul (int_truediv 0 N) 100) = 0%Q.
Proof.
  unfold int_truediv.
  rewrite (float64_proper (inject_Z 0 / inject_Z N) 0).
  - vm_compute. reflexivity.
  - unfold Qdiv. change (inject_Z 0) with 0%Q. apply Qmult_0_l.
Qed.

(** ** What the order of the rows does not change *)

Lemma filter_filter_and {A : Type} (f g : A -> bool) (l : list A) :
  filter f (filter g l) = filter (fun x => g x && f x) l.
Proof.
  induction l as [| a l IH]; cbn; [reflexivity |].
  destruct (g a); cbn; [destruct (f a) |]; rewrite IH; reflexivity.
Qed.


(** The two counts, read off the table itself. *)
Lemma count_total_filter (since_time : string) (db : Table) (name : string) :
  count_total since_time db name
  = Z.of_nat
      (List.length
         (filter (fun r => String.ltb since_time (timestamp r)
                           && String.eqb (collection_name r) name) db)).
Proof.
  unfold count_total, checks_in_window, window_rows.
  rewrite filter_filter_and. reflexivity.
Qed.

Lemma count_accessible_filter (since_time : string) (db : Table)
    (name : string) :
  count_accessible since_time db name
  = Z.of_nat
      (List.length
         (filter (fun r => String.ltb since_time (timestamp r)
                           && String.eqb (collection_name r) name
                           && is_accessible r) db)).
Proof.
  unfold count_accessible, checks_in_window, window_rows.
  rewrite !filter_filter_and. do 2 f_equal.
  apply filter_ext. intros r. apply andb_assoc.
Qed.





(** ** The aggregation window *)

(** The entry of a name, when there is one, is that of its group. *)
Lemma get_uptime_stats_lookup (since_time_of : Z -> string) (hours : Z)
    (db : Table) (name : string) :
  1 <= count_total (since_time_of hours) db name ->
  dict_get (fst (get_uptime_stats since_time_of hours db)) name
  = Some (group_stats name (window_rows (since_time_of hours) db)).
Proof.
  intros HN. rewrite get_uptime_stats_entries.
  apply (dict_get_keys_in
           (fun n => group_stats n (window_rows (since_time_of hours) db))).
  apply key_iff_checked. exact HN.
Qed.

Lemma get_uptime_stats_lookup_none (since_time_of : Z -> string) (hours : Z)
    (db : Table) (name : string) :
  count_total (since_time_of hours) db name = 0 ->
  dict_get (fst (get_uptime_stats since_time_of hours db)) name = None.
Proof.
  intros HN. rewrite get_uptime_stats_entries.
  apply (dict_get_keys_out
           (fun n => group_stats n (window_rows (since_time_of hours) db))).
  rewrite key_iff_checked. lia.
Qed.

Lemma count_total_cases (since_time : string) (db : Table) (name : string) :
  count_total since_time db name = 0 \/ 1 <= count_total since_time db name.
Proof. unfold count_total. lia. Qed.

(** A name has at least one check exactly when the table holds a row of
    that name that is newer than [since_time]. *)
Lemma count_total_positive (since_time : string) (db : Table)
    (name : string) :
  1 <= count_total since_time db name <->
  exists r, In r db /\ collection_name r = name /\
            str_lt since_time (timestamp r).
Proof.
  rewrite <- key_iff_checked, group_keys_In. unfold window_rows.
  split; intros (r & Hr & Hrest); exists r.
  - apply filter_In in Hr as [Hin Hlt]. apply str_ltb_lt in Hlt. auto.
  - destruct Hrest as [Hn Hlt]. split; [| exact Hn].
    apply filter_In. split; [exact Hr | apply str_ltb_lt; exact Hlt].
Qed.

(** The entry of a name in terms of the table. *)
Lemma get_uptime_stats_entry (since_time_of : Z -> string) (hours : Z)
    (db : Table) (name : string) (entry : Stats) :
  dict_get (fst (get_uptime_stats since_time_of hours db)) name = Some entry ->
  1 <= count_total (since_time_of hours) db name /\
  entry = row_stats (count_total (since_time_of hours) db name)
            (count_accessible (since_time_of hours) db name)
            (sql_avg_response_time
               (checks_in_window (since_time_of hours) db name)).
Proof.
  destruct (count_total_cases (since_time_of hours) db name) as [HN | HN].
  - rewrite (get_uptime_stats_lookup_none _ _ _ _ HN). discriminate.
  - rewrite (get_uptime_stats_lookup _ _ _ _ HN).
    intros H; inversion H; subst; clear H. split; [exact HN |].
    unfold group_stats. rewrite count_total_group, count_accessible_group.
    reflexivity.
Qed.

(** A row that is not newer than [since_time] does not reach the query. *)
Lemma window_rows_drop (since_time : string) (db1 db2 : Table)
    (r : ProbeResult) :
  ~ str_lt since_time (timestamp r) ->
  window_rows since_time (db1 ++ r :: db2)%list
  = window_rows since_time (db1 ++ db2)%list.
Proof.
  intros H. unfold window_rows. rewrite !filter_app. cbn [filter].
  destruct (String.ltb since_time (timestamp r)) eqn:E; [| reflexivity].
  apply str_ltb_lt in E. contradiction.
Qed.

(** The dictionary is determined by the rows of the window, in the order
    they are stored. *)
Lemma get_uptime_stats_same_window (since_of1 since_of2 : Z -> string)
    (hours1 hours2 : Z) (db1 db2 : Table) :
  window_rows (since_of1 hours1) db1 = window_rows (since_of2 hours2) db2 ->
  fst (get_uptime_stats since_of1 hours1 db1)
  = fst (get_uptime_stats since_of2 hours2 db2).
Proof.
  intros H. rewrite !get_uptime_stats_entries, H. reflexivity.
Qed.

(** C7.  What [get_uptime_stats] returns shows which rows its query has
    read: exactly those whose timestamp is strictly greater than
    [since_time].  A collection has an entry if and only if the table holds
    a row of it with [since_time < timestamp]; the entry counts every such
    row and no other; and a row whose timestamp equals [since_time], or is
    smaller, can be taken out of the table without any change to the
    dictionary, while a row with a greater timestamp adds one to the count
    of its collection. *)
Theorem get_uptime_stats_window_strict (since_time_of : Z -> string)
    (hours : Z) (db : Table) (name : string) :
  let since_time := since_time_of hours in
  let stats := fst (get_uptime_stats since_time_of hours db) in
  let newer (r : ProbeResult) :=
    String.ltb since_time (timestamp r)
    && String.eqb (collection_name r) name in
  ((exists entry, dict_get stats name = Some entry) <->
   (exists r, In r db /\ collection_name r = name /\
              str_lt since_time (timestamp r))) /\
  (forall entry, dict_get stats name = Some entry ->
     total_checks entry = Z.of_nat (List.length (filter newer db)) /\
     successful_checks entry
     = Z.of_nat (List.length
                   (filter (fun r => newer r && is_accessible r) db))) /\
  (forall db1 db2 r, db = (db1 ++ r :: db2)%list ->
     timestamp r = since_time ->
     stats = fst (get_uptime_stats since_time_of hours (db1 ++ db2)%list)) /\
  (forall db1 db2 r, db = (db1 ++ r :: db2)%list ->
     str_lt (timestamp r) since_time ->
     stats = fst (get_uptime_stats since_time_of hours (db1 ++ db2)%list)) /\
  (forall db1 db2 r, db = (db1 ++ r :: db2)%list ->
     collection_name r = name -> str_lt since_time (timestamp r) ->
     exists entry,
       dict_get stats name = Some entry /\
       total_checks entry
       = 1 + Z.of_nat (List.length (filter newer (db1 ++ db2)%list))).
Proof.
  cbn zeta. split; [| split; [| split; [| split]]].
  - rewrite <- count_total_positive. split.
    + intros (entry & Hget).
      apply (get_uptime_stats_entry _ _ _ _ _ Hget).
    + intros HN. rewrite (get_uptime_stats_lookup _ _ _ _ HN). eauto.
  - intros entry Hget.
    destruct (get_uptime_stats_entry _ _ _ _ _ Hget) as [_ ->].
    cbn [total_checks successful_checks row_stats].
    rewrite count_total_filter, count_accessible_filter. split; reflexivity.
  - intros db1 db2 r -> Heq.
    apply get_uptime_stats_same_window, window_rows_drop.
    rewrite Heq. apply str_lt_irrefl.
  - intros db1 db2 r -> Hlt.
    apply get_uptime_stats_same_window, window_rows_drop.
    apply str_lt_asym. exact Hlt.
  - intros db1 db2 r -> Hname Hlt.
    assert (Hstep : count_total (since_time_of hours)
                      (db1 ++ r :: db2)%list name
                    = 1 + count_total (since_time_of hours)
                            (db1 ++ db2)%list name).
    { rewrite !count_total_filter, !filter_app. cbn [filter].
      apply str_ltb_lt in Hlt. rewrite Hlt, Hname, String.eqb_refl.
      cbn [andb]. rewrite !length_app. cbn [List.length]. lia. }
    assert (HN : 1 <= count_total (since_time_of hours)
                        (db1 ++ r :: db2)%list name).
    { rewrite Hstep. unfold count_total. lia. }
    rewrite (get_uptime_stats_lookup _ _ _ _ HN).
    eexists. split; [reflexivity |].
    unfold group_stats. cbn [total_checks row_stats].
    rewrite count_total_group, Hstep, count_total_filter. reflexivity.
Qed.

Lemma get_uptime_stats_window_strict_witness :
  let boundary := row_down "Europeana" "2024-05-01T00:00:00" in
  let first := row_down "Europeana" "2024-05-01T00:00:00.000001" in
  fst (get_uptime_stats since_midnight 24 [boundary; first])
  = fst (get_uptime_stats since_midnight 24 [first]) /\
  exists entry,
    dict_get (fst (get_uptime_stats since_midnight 24 [boundary; first]))
      "Europeana" = Some entry /\
    total_checks entry = 1.
Proof.
  cbn zeta.
  destruct (get_uptime_stats_window_strict since_midnight 24
              [row_down "Europeana" "2024-05-01T00:00:00";
               row_down "Europeana" "2024-05-01T00:00:00.000001"]
              "Europeana") as (_ & _ & Hsame & _ & Hcount).
  split.
  - apply (Hsame [] [row_down "Europeana" "2024-05-01T00:00:00.000001"]
             (row_down "Europeana" "2024-05-01T00:00:00"));
      reflexivity.
  - apply (Hcount [row_down "Europeana" "2024-05-01T00:00:00"] []
             (row_down "Europeana" "2024-05-01T00:00:00.000001"));
      reflexivity.
Defined.

(** ** Uptime statistics *)

(** The fallback of the loop body: no checks, zero percent. *)
Lemma row_stats_no_checks (successful : Z) (avg_time : option Q) :
  uptime_percent (row_stats 0 successful avg_time) = round2 0.
Proof. reflexivity. Qed.

(** 23 successes in 160 checks: the quotient is the float 0.14375, its
    product with 100 the float just below 14.375, and the percentage
    reported 14.37, where the exact quotient would round to 14.38. *)
Lemma uptime_percent_23_of_160 :
  round2 (float_mul (int_truediv 23 160) 100) = float64 (1437 # 100) /\
  round2 (inject_Z 23 / inject_Z 160 * 100) = float64 (1438 # 100).
Proof. split; vm_compute; reflexivity. Qed.

(** C5, as the code has it.  A collection with [N >= 1] rows in the window,
    [S] of them accessible, has an entry with [total_checks = N] and
    [successful_checks = S] whose [uptime_percent] is what the float
    expression [round(S / N * 100, 2)] evaluates to: the quotient, the
    product and the decimal rounding are each rounded to a float.  A
    collection with no row in the window has no entry at all. *)
Theorem get_uptime_stats_uptime_percent (since_time_of : Z -> string)
    (hours : Z) (db : Table) (name : string) :
  let since_time := since_time_of hours in
  let newer (r : ProbeResult) :=
    String.ltb since_time (timestamp r)
    && String.eqb (collection_name r) name in
  let N := Z.of_nat (List.length (filter newer db)) in
  let S :=
    Z.of_nat (List.length
                (filter (fun r => newer r && is_accessible r) db)) in
  let stats := fst (get_uptime_stats since_time_of hours db) in
  (1 <= N ->
   exists entry,
     dict_get stats name = Some entry /\
     uptime_percent entry = round2 (float_mul (int_truediv S N) 100) /\
     total_checks entry = N /\
     successful_checks entry = S) /\
  (N = 0 -> dict_get stats name = None).
Proof.
  cbn zeta.
  rewrite <- count_total_filter, <- count_accessible_filter. split.
  - intros HN. rewrite (get_uptime_stats_lookup _ _ _ _ HN).
    eexists. split; [reflexivity |].
    unfold group_stats, row_stats; cbn.
    rewrite count_total_group, count_accessible_group.
    destruct (0 <? count_total (since_time_of hours) db name) eqn:Hpos.
    + repeat split.
    + apply Z.ltb_ge in Hpos. lia.
  - apply get_uptime_stats_lookup_none.
Qed.

Lemma get_uptime_stats_uptime_percent_witness :
  exists entry,
    dict_get (fst (get_uptime_stats since_midnight 24 table_23_of_160))
      "Europeana" = Some entry /\
    uptime_percent entry = float64 (1437 # 100) /\
    total_checks entry = 160 /\
    successful_checks entry = 23.
Proof.
  destruct (proj1 (get_uptime_stats_uptime_percent since_midnight 24
                     table_23_of_160 "Europeana"))
    as (entry & Hget & Hup & Htotal & Hsucc).
  - vm_compute. discriminate.
  - exists entry. split; [exact Hget |].
    split; [| split; [exact Htotal | exact Hsucc]].
    rewrite Hup. vm_compute. reflexivity.
Defined.

(** C5, as stated, fails when [N = 0]: the only row of the collection is
    older than the window, and the statistics report nothing for it, so
    they do not report zero. *)
Lemma get_uptime_stats_no_checks_counterexample :
  let db := [row_up "Europeana" "2024-04-30T23:59:59.999999" (12 # 100)] in
  count_total (since_midnight 24) db "Europeana" = 0 /\
  ~ (exists entry,
       dict_get (fst (get_uptime_stats since_midnight 24 db)) "Europeana"
       = Some entry /\
       (uptime_percent entry == 0)%Q).
Proof.
  cbn zeta. split; [reflexivity |].
  intros (entry & Hget & _). vm_compute in Hget. discriminate.
Qed.

(** C10.  Every entry of the dictionary belongs to a collection that has a
    row in the window: its [total_checks] is the number of these rows, at
    least one, its [successful_checks] the number of the accessible ones
    among them, and its uptime lies between 0 and 100; the test
    [total > 0] of the loop body holds, so the uptime is the value of the
    first branch and the fallback is never taken. *)
Theorem get_uptime_stats_entry_bounds (since_time_of : Z -> string)
    (hours : Z) (db : Table) (name : string) (entry : Stats) :
  In (name, entry) (fst (get_uptime_stats since_time_of hours db)) ->
  let since_time := since_time_of hours in
  let newer (r : ProbeResult) :=
    String.ltb since_time (timestamp r)
    && String.eqb (collection_name r) name in
  (exists r, In r db /\ collection_name r = name /\
             str_lt since_time (timestamp r)) /\
  total_checks entry = Z.of_nat (List.length (filter newer db)) /\
  successful_checks entry
  = Z.of_nat (List.length (filter (fun r => newer r && is_accessible r) db)) /\
  1 <= total_checks entry /\
  0 <= successful_checks entry <= total_checks entry /\
  (0 <= uptime_percent entry)%Q /\ (uptime_percent entry <= 100)%Q /\
  (0 <? total_checks entry) = true /\
  uptime_percent entry
  = round2 (float_mul
              (int_truediv (successful_checks entry) (total_checks entry))
              100).
Proof.
  rewrite get_uptime_stats_entries, in_map_iff.
  intros (n & Heq & Hkey). inversion Heq; subst; clear Heq.
  apply key_iff_checked in Hkey. cbn zeta.
  pose proof (count_accessible_le (since_time_of hours) db name) as Hle.
  pose proof (proj1 (count_total_positive _ _ _) Hkey) as Hrow.
  unfold group_stats, row_stats; cbn.
  rewrite count_total_group, count_accessible_group.
  assert (Hpos : (0 <? count_total (since_time_of hours) db name) = true)
    by (apply Z.ltb_lt; lia).
  rewrite Hpos.
  destruct (ratio_bounds _ _ Hle Hkey) as [H0 H100].
  destruct (round2_bounds _ H0 H100) as [Hr0 Hr100].
  split; [exact Hrow |].
  split; [apply count_total_filter |].
  split; [apply count_accessible_filter |].
  repeat split; try assumption; lia.
Qed.

Lemma get_uptime_stats_entry_bounds_witness :
  exists entry,
    In ("Europeana", entry)
      (fst (get_uptime_stats since_midnight 24 table_shared_instant)) /\
    total_checks entry = 2 /\
    successful_checks entry = 1 /\
    (0 <= uptime_percent entry)%Q /\ (uptime_percent entry <= 100)%Q.
Proof.
  eexists. split; [left; reflexivity |].
  destruct (get_uptime_stats_entry_bounds since_midnight 24
              table_shared_instant "Europeana" _ (or_introl eq_refl))
    as (_ & H1 & H2 & _ & _ & H3 & H4 & _).
  split; [exact H1 |]. split; [exact H2 |]. split; assumption.
Defined.





(** C6 at a table on which the code departs from it.  A server that answers
    within three milliseconds is recorded with a response time of 0.0; the
    window then holds a row whose response time is present, and the average
    is reported as absent. *)
Theorem get_uptime_stats_zero_latency :
  check_collection world_fast "Local Mirror" "http://localhost:8080/" 10
  = Return row_fast /\
  In row_fast (window_rows (since_midnight 24) [row_fast]) /\
  response_time row_fast = Some 0%Q /\
  exists entry,
    dict_get (fst (get_uptime_stats since_midnight 24 [row_fast]))
      "Local Mirror" = Some entry /\
    total_checks entry = 1 /\
    avg_response_time entry = None.
Proof.
  split; [vm_compute; reflexivity |].
  split; [left; reflexivity |].
  split; [reflexivity |].
  eexists. split; [vm_compute; reflexivity |]. split; reflexivity.
Qed.

(** ** Current status *)

(** C2 at a table on which the code departs from it.  Two collections were
    probed in the same microsecond and one of them again an hour later;
    [get_current_status] returns three rows, among them the older row of
    the collection probed twice, whose timestamp is the latest of the other
    collection. *)
Theorem get_current_status_stale_row :
  let stale := row_up "Europeana" "2024-05-01T10:00:00.000100" (12 # 100) in
  let status := fst (get_current_status table_shared_instant) in
  let stamps :=
    map (fun s => (Status.collection_name s, Status.timestamp s)) status in
  group_keys table_shared_instant = ["Europeana"; "Internet Archive"] /\
  List.length status = 3%nat /\
  In ("Europeana", "2024-05-01T10:00:00.000100") stamps /\
  In ("Europeana", "2024-05-01T11:00:00.000100") stamps /\
  In ("Internet Archive", "2024-05-01T10:00:00.000100") stamps /\
  In stale (current_status_query table_shared_instant) /\
  ~ latest_in table_shared_instant stale.
Proof.
  cbn zeta. split; [reflexivity |]. split; [reflexivity |].
  split; [left; reflexivity |].
  split; [right; left; reflexivity |].
  split; [right; right; left; reflexivity |].
  split; [left; reflexivity |].
  intros [_ Hlatest].
  apply (Hlatest (row_down "Europeana" "2024-05-01T11:00:00.000100")).
  - right; right; left; reflexivity.
  - reflexivity.
  - reflexivity.
Qed.

(** * Further properties of the code *)

(** ** The probe *)

(** X1.  In a result of [check_collection] the three measurements come
    together: [status_code], [response_time] and [content_length] are all
    present or all absent.  Without them the result is inaccessible, and
    with them the only error text there can be is ["HTTP "] followed by the
    recorded status. *)
Theorem check_collection_measurements (w : ProbeWorld)
    (name target_url : string) (timeout : Z) (r : ProbeResult) :
  check_collection w name target_url timeout = Return r ->
  (status_code r = None <-> response_time r = None) /\
  (status_code r = None <-> content_length r = None) /\
  (status_code r = None -> is_accessible r = false) /\
  (forall sc, status_code r = Some sc ->
     error_message r = None \/
     error_message r = Some ("HTTP " ++ str_int sc)%string).
Proof.
  unfold check_collection, try_body.
  destruct (session_get w target_url timeout) as [[sc body] | e]; cbn.
  - destruct ((200 <=? sc) && (sc <? 400)); cbn;
      intros H; inversion H; subst; clear H; cbn;
      (repeat split; try discriminate);
      intros sc' Hsc; inversion Hsc; subst; auto.
  - intros H. apply except_clauses_fields in H; cbn in H.
    destruct H as (_ & _ & _ & Hacc & Hsc & Hrt & Hcl & _).
    rewrite Hacc, Hsc, Hrt, Hcl.
    repeat split; auto; discriminate.
Qed.

Lemma check_collection_measurements_witness :
  exists r,
    check_collection world_error "Europeana" "https://www.europeana.eu/" 10
    = Return r /\
    status_code r = Some 500 /\
    error_message r = Some "HTTP 500".
Proof.
  eexists. split; [reflexivity |]. split; [reflexivity |].
  destruct (check_collection_measurements world_error "Europeana"
              "https://www.europeana.eu/" 10 _ eq_refl) as (_ & _ & _ & H).
  destruct (H 500 eq_refl) as [Hnone | Hmsg]; [discriminate Hnone |].
  exact Hmsg.
Defined.

(** Rounding to the nearest integer moves a number by at most one half. *)
Lemma round_half_even_error (n : Z) (d : positive) :
  let k := round_half_even (n # d) in
  - Zpos d <= 2 * (k * Zpos d - n) <= Zpos d.
Proof.
  unfold round_half_even; cbn [Qnum Qden].
  set (q := n / Zpos d). set (m := n mod Zpos d).
  assert (Hdm : n = Zpos d * q + m) by (apply Z.div_mod; lia).
  assert (Hm : 0 <= m < Zpos d) by (apply Z.mod_pos_bound; lia).
  destruct (2 * m <? Zpos d) eqn:Hlow.
  - apply Z.ltb_lt in Hlow. nia.
  - apply Z.ltb_ge in Hlow.
    destruct (Zpos d <? 2 * m) eqn:Hhigh.
    + apply Z.ltb_lt in Hhigh. nia.
    + apply Z.ltb_ge in Hhigh. destruct (Z.even q); nia.
Qed.

Lemma round_hundredths_error (x : Q) :
  let k := round_half_even (x * 100) in
  (- (1 # 200) <= (k # 100) - x)%Q /\ ((k # 100) - x <= 1 # 200)%Q.
Proof.
  destruct x as [n d].
  pose proof (round_half_even_error (n * 100) (d * 1)) as H.
  cbn zeta in *.
  change ((n # d) * 100)%Q with ((n * 100) # (d * 1)).
  set (k := round_half_even ((n * 100) # (d * 1))) in *.
  rewrite Pos.mul_1_r in H.
  unfold Qle, Qminus, Qplus, Qopp; cbn [Qnum Qden].
  rewrite !Pos2Z.inj_mul. nia.
Qed.

(** X2.  The response time recorded for a completed request is the float
    nearest to a whole number [k] of hundredths of a second, and [k / 100]
    differs by at most half a hundredth from the elapsed time, the float
    that [end_time - start_time] evaluates to; [k] is not negative unless
    the clock went back between the two readings. *)
Theorem check_collection_response_time (w : ProbeWorld)
    (name target_url : string) (timeout : Z) (r : ProbeResult)
    (response : Response) :
  session_get w target_url timeout = Return response ->
  check_collection w name target_url timeout = Return r ->
  let elapsed := float_sub (end_time w) (start_time w) in
  exists k,
    response_time r = Some (float64 (k # 100)) /\
    (- (1 # 200) <= (k # 100) - elapsed)%Q /\
    ((k # 100) - elapsed <= 1 # 200)%Q /\
    ((start_time w <= end_time w)%Q -> 0 <= k).
Proof.
  intros Hget Hret. cbn zeta.
  exists (round_half_even (float_sub (end_time w) (start_time w) * 100)).
  split; [| split; [| split]].
  - revert Hret. unfold check_collection, try_body. rewrite Hget.
    destruct response as [sc body]; cbn.
    destruct ((200 <=? sc) && (sc <? 400)); cbn;
      intros H; inversion H; subst; clear H; cbn;
      rewrite round2_hundredths; reflexivity.
  - apply round_hundredths_error.
  - apply round_hundredths_error.
  - intros Hle. apply round_half_even_nonneg.
    apply Qmult_le_0_compat; [| discriminate].
    unfold float_sub. apply float64_nonneg.
    apply (proj1 (Qle_minus_iff _ _)). exact Hle.
Qed.

Lemma check_collection_response_time_witness :
  exists r k,
    check_collection world_fast "Local Mirror" "http://localhost:8080/" 10
    = Return r /\
    response_time r = Some (float64 (k # 100)) /\
    0 <= k.
Proof.
  destruct (check_collection_response_time world_fast "Local Mirror"
              "http://localhost:8080/" 10 row_fast
              (mkResponse 200 "<html></html>") eq_refl)
    as (k & Ht & _ & _ & Hk).
  - vm_compute. reflexivity.
  - exists row_fast, k. split; [vm_compute; reflexivity |].
    split; [exact Ht |]. apply Hk. vm_compute. discriminate.
Defined.

(** ** The fan-out *)

Lemma remove_nth_shorter {A : Type} (i : nat) (l : list A) :
  (List.length (remove_nth i l) <= List.length l)%nat.
Proof.
  unfold remove_nth. rewrite length_app, length_firstn, length_skipn. lia.
Qed.

Lemma step_running_bound (max_workers : Z) (ev : Event) (s s' : PoolState) :
  step max_workers ev s = Some s' ->
  Z.of_nat (List.length (running s)) <= Z.max 0 max_workers ->
  Z.of_nat (List.length (running s')) <= Z.max 0 max_workers.
Proof.
  destruct s as [u p r f rs]. unfold step; cbn.
  destruct ev as [| | i w | j].
  - destruct u; intros H; inversion H; subst; cbn; auto.
  - destruct p as [| t p]; [discriminate |].
    destruct (_ <? _) eqn:Hfree; intros H; inversion H; subst; cbn.
    apply Z.ltb_lt in Hfree. rewrite length_app; cbn. lia.
  - destruct (nth_error r i) as [[name u'] |]; [| discriminate].
    intros H; inversion H; subst; cbn.
    pose proof (remove_nth_shorter i r). lia.
  - destruct u; [| discriminate].
    destruct (nth_error f j) as [[t o] |]; [| discriminate].
    destruct (collect_future o rs); intros H; inversion H; subst; cbn; auto.
Qed.

(** X3.  At no point of a run of the pool are more than [max_workers]
    probes in flight. *)
Theorem pool_running_bound (max_workers : Z) (targets : list Target)
    (evs : list Event) (s : PoolState) :
  exec max_workers evs (mkPoolState targets [] [] [] []) = Some s ->
  Z.of_nat (List.length (running s)) <= Z.max 0 max_workers.
Proof.
  assert (H : forall s0,
             Z.of_nat (List.length (running s0)) <= Z.max 0 max_workers ->
             exec max_workers evs s0 = Some s ->
             Z.of_nat (List.length (running s)) <= Z.max 0 max_workers).
  { induction evs as [| ev evs IH]; intros s0 Hb; cbn.
    - intros E; inversion E; subst. exact Hb.
    - destruct (step max_workers ev s0) as [s1 |] eqn:Hstep; [| discriminate].
      apply IH. eapply step_running_bound; eassumption. }
  apply H. cbn. lia.
Qed.

Lemma pool_running_bound_witness :
  exists s,
    exec 5 (repeat Submit 15 ++ repeat Start 5)%list
      (mkPoolState collections [] [] [] []) = Some s /\
    Z.of_nat (List.length (running s)) <= Z.max 0 5.
Proof.
  destruct (exec 5 (repeat Submit 15 ++ repeat Start 5)%list
              (mkPoolState collections [] [] [] [])) as [s |] eqn:Hrun;
    [| vm_compute in Hrun; discriminate].
  exists s. split; [reflexivity |].
  exact (pool_running_bound 5 collections _ s Hrun).
Defined.

Lemma step_targets (max_workers : Z) (ev : Event) (s s' : PoolState) :
  finished_valid s -> step max_workers ev s = Some s' ->
  Permutation (targets_in s) (targets_in s') /\ finished_valid s'.
Proof.
  destruct s as [u p r f rs]. unfold step, targets_in, finished_valid; cbn.
  intros [Hok Hrs]. destruct ev as [| | i w | j].
  - destruct u as [| t u]; intros H; inversion H; subst; cbn.
    split; [| auto]. apply perm_move.
  - destruct p as [| t p]; [discriminate |].
    destruct (_ <? _); intros H; inversion H; subst; cbn.
    split; [| auto]. apply Permutation_app_head. apply perm_move.
  - destruct (nth_error r i) as [[name u'] |] eqn:Hnth; [| discriminate].
    intros H; inversion H; subst; cbn. split.
    + do 2 apply Permutation_app_head.
      rewrite (remove_nth_perm i r _ Hnth) at 1.
      rewrite map_app. apply perm_move.
    + split; [| exact Hrs].
      apply Forall_app. split; [exact Hok |].
      constructor; [| constructor]. cbn.
      destruct (check_collection_returns w name u' 10) as (x & Hret).
      exists x. split; [exact Hret |]. split.
      * exact (check_collection_valid w name u' 10 x Hret).
      * destruct (check_collection_target w name u' 10 x Hret) as (-> & -> & _).
        reflexivity.
  - destruct u as [| t u]; [| discriminate].
    destruct (nth_error f j) as [[t o] |] eqn:Hnth; [| discriminate].
    assert (Ho : exists x, o = Return x /\ valid_ProbeResult x /\
                           (collection_name x, url x) = t).
    { rewrite Forall_forall in Hok.
      apply (Hok (t, o)). eapply nth_error_In; eassumption. }
    destruct Ho as (x & -> & Hvalid & Ht). cbn.
    intros H; inversion H; subst; cbn. split.
    + do 2 apply Permutation_app_head.
      rewrite (Permutation_map fst (remove_nth_perm j f _ Hnth)).
      rewrite map_app. cbn [map fst]. apply perm_move_end.
    + split; [apply remove_nth_Forall; exact Hok |].
      apply Forall_app. split; [exact Hrs |].
      constructor; [exact Hvalid | constructor].
Qed.

Lemma exec_targets (max_workers : Z) (evs : list Event) (s s' : PoolState) :
  finished_valid s -> exec max_workers evs s = Some s' ->
  Permutation (targets_in s) (targets_in s') /\ finished_valid s'.
Proof.
  revert s. induction evs as [| ev evs IH]; intros s Hok; cbn [exec].
  - intros H; inversion H; subst. auto.
  - destruct (step max_workers ev s) as [s1 |] eqn:Hstep; [| discriminate].
    intros Hexec.
    destruct (step_targets max_workers ev s s1 Hok Hstep) as [Hperm Hok1].
    destruct (IH s1 Hok1 Hexec) as (Hperm' & Hok').
    split; [etransitivity; eassumption | exact Hok'].
Qed.

(** What a complete run returns: a valid result for each configured pair of
    name and URL. *)
Lemma monitor_all_collections_returns (max_workers : Z)
    (targets : list Target) (schedule : list Event)
    (rs : list ProbeResult) :
  monitor_all_collections max_workers targets schedule = Some (Return rs) ->
  Permutation (map (fun r => (collection_name r, url r)) rs) targets /\
  Forall valid_ProbeResult rs.
Proof.
  unfold monitor_all_collections, pool_start.
  destruct (max_workers <=? 0); [discriminate |].
  destruct (exec max_workers schedule _) as [s |] eqn:Hexec; [| discriminate].
  destruct (all_done s) eqn:Hdone; [| discriminate].
  intros H; inversion H; subst; clear H.
  assert (Hok0 : finished_valid (mkPoolState targets [] [] [] [])).
  { split; constructor. }
  destruct (exec_targets max_workers schedule _ s Hok0 Hexec)
    as (Hperm & _ & Hvalid).
  split; [| exact Hvalid].
  destruct s as [[| ? ?] [| ? ?] [| ? ?] [| ? ?] rs]; try discriminate.
  unfold targets_in in Hperm; cbn in Hperm. rewrite app_nil_r in Hperm.
  symmetry. exact Hperm.
Qed.

(** X4.  The results that [monitor_all_collections] returns pair every
    configured name with its own URL, once each: there are as many results
    as targets, and every one of them satisfies the invariant of a probe
    result. *)
Theorem monitor_all_collections_results (max_workers : Z)
    (targets : list Target) (schedule : list Event)
    (rs : list ProbeResult) :
  monitor_all_collections max_workers targets schedule = Some (Return rs) ->
  Permutation (map (fun r => (collection_name r, url r)) rs) targets /\
  List.length rs = List.length targets /\
  (forall r, In r rs -> In (collection_name r, url r) targets) /\
  Forall valid_ProbeResult rs.
Proof.
  intros Hrun.
  destruct (monitor_all_collections_returns _ _ _ _ Hrun) as [Hperm Hvalid].
  split; [exact Hperm |]. split; [| split; [| exact Hvalid]].
  - apply Permutation_length in Hperm. rewrite length_map in Hperm.
    exact Hperm.
  - intros r Hr. apply (Permutation_in _ Hperm).
    apply (in_map (fun x => (collection_name x, url x))). exact Hr.
Qed.

Lemma monitor_all_collections_results_witness :
  exists rs,
    monitor_all_collections 5 collections schedule_all_down
    = Some (Return rs) /\
    Permutation (map (fun r => (collection_name r, url r)) rs) collections /\
    Forall valid_ProbeResult rs.
Proof.
  destruct (monitor_all_collections 5 collections schedule_all_down)
    as [[rs | e] |] eqn:Hrun;
    [| vm_compute in Hrun; discriminate | vm_compute in Hrun; discriminate].
  exists rs. split; [reflexivity |].
  destruct (monitor_all_collections_results 5 collections schedule_all_down
              rs Hrun) as (Hperm & _ & _ & Hvalid).
  split; assumption.
Defined.

(** ** Saving results and running a cycle *)

Lemma save_results_app (results : list ProbeResult) (db : Table) :
  snd (save_results results db) = (db ++ results)%list.
Proof.
  unfold save_results; cbn [snd]. revert db.
  induction results as [| r results IH]; intros db; cbn.
  - rewrite app_nil_r. reflexivity.
  - rewrite IH, <- app_assoc. reflexivity.
Qed.

Lemma window_rows_app (since_time : string) (db db' : Table) :
  window_rows since_time (db ++ db')%list
  = (window_rows since_time db ++ window_rows since_time db')%list.
Proof. unfold window_rows. apply filter_app. Qed.

Lemma checks_in_window_app (since_time : string) (db db' : Table)
    (name : string) :
  checks_in_window since_time (db ++ db')%list name
  = (checks_in_window since_time db name
     ++ checks_in_window since_time db' name)%list.
Proof.
  unfold checks_in_window. rewrite window_rows_app. apply filter_app.
Qed.

(** X5.  [save_results] only appends: the rows stored before are still
    there, unchanged and in place, followed by the new results in the order
    given; so for every window and collection the number of checks and of
    successful checks grows by what the saved results contribute. *)
Theorem save_results_appends (results : list ProbeResult) (db : Table)
    (since_time name : string) :
  let db' := snd (save_results results db) in
  db' = (db ++ results)%list /\
  firstn (List.length db) db' = db /\
  skipn (List.length db) db' = results /\
  count_total since_time db' name
  = count_total since_time db name + count_total since_time results name /\
  count_accessible since_time db' name
  = count_accessible since_time db name
    + count_accessible since_time results name.
Proof.
  cbn zeta. rewrite save_results_app.
  split; [reflexivity |].
  split; [rewrite firstn_app, Nat.sub_diag, firstn_all; cbn;
          apply app_nil_r |].
  split; [rewrite skipn_app, Nat.sub_diag, skipn_all; reflexivity |].
  unfold count_total, count_accessible.
  rewrite checks_in_window_app, filter_app, !length_app. lia.
Qed.

Lemma accessible_count_filter (results : list ProbeResult) :
  accessible_count results
  = Z.of_nat (List.length (filter is_accessible results)).
Proof.
  unfold accessible_count.
  assert (H : forall acc,
             fold_left (fun a r => if is_accessible r then a + 1 else a)
               results acc
             = acc + Z.of_nat (List.length (filter is_accessible results))).
  { induction results as [| r results IH]; intros acc; cbn.
    - lia.
    - rewrite IH. destruct (is_accessible r); cbn [List.length]; lia. }
  rewrite H. lia.
Qed.

(** What a cycle that completes leaves behind. *)
Lemma run_monitoring_cycle_returns (targets : list Target)
    (schedule : list Event) (db db' : Table) (results : list ProbeResult)
    (line : string) :
  run_monitoring_cycle targets schedule db
  = Some (Return (results, line), db') ->
  monitor_all_collections 5 targets schedule = Some (Return results) /\
  db' = (db ++ results)%list /\
  line = summary_line results.
Proof.
  unfold run_monitoring_cycle.
  destruct (monitor_all_collections 5 targets schedule) as [[rs | e] |];
    try discriminate.
  pose proof (save_results_app rs db) as Happ.
  destruct (save_results rs db) as [u tbl]; cbn in Happ.
  intros H; inversion H; subst. auto.
Qed.

(** X6.  A monitoring cycle that completes appends exactly one row for each
    configured target, with that target's name and URL, after the rows that
    were stored before; its summary counts the accessible results among
    them, out of as many results as there are targets. *)
Theorem run_monitoring_cycle_appends (targets : list Target)
    (schedule : list Event) (db db' : Table) (results : list ProbeResult)
    (line : string) :
  run_monitoring_cycle targets schedule db
  = Some (Return (results, line), db') ->
  db' = (db ++ results)%list /\
  List.length db' = (List.length db + List.length targets)%nat /\
  Permutation (map (fun r => (collection_name r, url r)) results) targets /\
  Forall valid_ProbeResult results /\
  accessible_count results
  = Z.of_nat (List.length (filter is_accessible results)) /\
  0 <= accessible_count results <= Z.of_nat (List.length targets) /\
  line = ("Summary: " ++ str_int (accessible_count results) ++ "/"
          ++ str_int (Z.of_nat (List.length targets))
          ++ " collections accessible")%string.
Proof.
  intros Hrun.
  destruct (run_monitoring_cycle_returns _ _ _ _ _ _ Hrun)
    as (Hmon & -> & ->).
  destruct (monitor_all_collections_returns _ _ _ _ Hmon) as [Hperm Hvalid].
  assert (Hlen : List.length results = List.length targets).
  { apply Permutation_length in Hperm as Hl.
    rewrite length_map in Hl. exact Hl. }
  split; [reflexivity |].
  split; [rewrite length_app; lia |].
  split; [exact Hperm |]. split; [exact Hvalid |].
  split; [apply accessible_count_filter |].
  split.
  - rewrite accessible_count_filter, <- Hlen.
    pose proof (filter_length_le is_accessible results). lia.
  - unfold summary_line. rewrite Hlen. reflexivity.
Qed.

Lemma run_monitoring_cycle_appends_witness :
  exists results line db',
    run_monitoring_cycle collections schedule_all_down table_shared_instant
    = Some (Return (results, line), db') /\
    db' = (table_shared_instant ++ results)%list /\
    List.length db' = 18%nat /\
    accessible_count results = 0.
Proof.
  destruct (run_monitoring_cycle collections schedule_all_down
              table_shared_instant) as [[[[results line] | e] db'] |] eqn:Hrun;
    [| vm_compute in Hrun; discriminate | vm_compute in Hrun; discriminate].
  exists results, line, db'. split; [reflexivity |].
  destruct (run_monitoring_cycle_appends _ _ _ _ _ _ Hrun)
    as (Hdb & Hlen & _ & _ & _ & _ & _).
  split; [exact Hdb |]. split; [exact Hlen |].
  vm_compute in Hrun. inversion Hrun. reflexivity.
Defined.

(** ** Current status *)

(** Every collection with a row has a latest row. *)
Lemma latest_exists (db : Table) (r : ProbeResult) :
  In r db ->
  exists r', latest_in db r' /\ collection_name r' = collection_name r.
Proof.
  intros Hin.
  assert (Hg : In r (group_rows (collection_name r) db))
    by (apply group_rows_In; auto).
  destruct (sql_max_timestamp_spec _ r Hg) as (m & _ & Hmem & Hub).
  apply in_map_iff in Hmem as (r' & <- & Hr').
  pose proof Hr' as Hr'g.
  apply group_rows_In in Hr' as [Hr'db Hname].
  exists r'. split; [| exact Hname].
  split; [exact Hr'db |].
  intros x Hx Hxname. apply Hub. apply group_rows_In. split; congruence.
Qed.

Lemma map_sorted {A B : Type} (f : A -> B) (RA : A -> A -> Prop)
    (RB : B -> B -> Prop) (l : list A) :
  (forall x y, RA x y -> RB (f x) (f y)) ->
  StronglySorted RA l -> StronglySorted RB (map f l).
Proof.
  intros Hf. induction 1 as [| a l S IH F]; cbn; constructor; [exact IH |].
  rewrite Forall_forall in *. intros y Hy.
  apply in_map_iff in Hy as (x & <- & Hx). auto.
Qed.

(** X7.  [get_current_status] leaves the table as it is and returns
    dictionaries in ascending order of collection name; each is built from
    a row of the table, and for every collection the dictionary of each of
    its latest rows is among them.  (Rows that are not the latest of their
    collection may be among them too.) *)
Theorem get_current_status_sound (db : Table) :
  let status := fst (get_current_status db) in
  snd (get_current_status db) = db /\
  StronglySorted status_name_le status /\
  (forall s, In s status -> exists r, In r db /\ s = status_of_row r) /\
  (forall r, latest_in db r -> In (status_of_row r) status) /\
  (forall r, In r db ->
     In (collection_name r) (map Status.collection_name status)).
Proof.
  cbn zeta. unfold get_current_status; cbn [fst snd].
  change (fun row : ProbeResult =>
            Status.mk (collection_name row) (url row) (status_code row)
              (response_time row) (timestamp row) (error_message row)
              (is_accessible row)) with status_of_row.
  destruct (current_status_query_sound db) as (Hsorted & Hsub & Hlatest).
  split; [reflexivity |]. split; [| split; [| split]].
  - apply (map_sorted status_of_row name_le); [| exact Hsorted].
    intros x y H. exact H.
  - intros s Hs. apply in_map_iff in Hs as (r & <- & Hr). eauto.
  - intros r Hr. apply in_map. auto.
  - intros r Hr.
    destruct (latest_exists db r Hr) as (r' & Hl & Hname).
    rewrite <- Hname. rewrite map_map. cbn.
    apply (in_map collection_name). auto.
Qed.

Lemma NoDup_map_inj {A B : Type} (f : A -> B) (l : list A) (x y : A) :
  NoDup (map f l) -> In x l -> In y l -> f x = f y -> x = y.
Proof.
  induction l as [| a l IH]; cbn; [tauto |].
  intros Hnd. inversion Hnd as [| ? ? Hnotin Hnd']; subst.
  intros [-> | Hx] [-> | Hy] Heq; auto.
  - destruct Hnotin. rewrite Heq. apply in_map. exact Hy.
  - destruct Hnotin. rewrite <- Heq. apply in_map. exact Hx.
Qed.

(** With pairwise distinct timestamps, only latest rows are selected. *)
Lemma current_status_query_latest (db : Table) (r : ProbeResult) :
  NoDup (map timestamp db) ->
  In r (current_status_query db) -> latest_in db r.
Proof.
  intros Hnd Hr. unfold current_status_query in Hr.
  apply (Permutation_in _ (Permutation_sym (order_by_perm _))) in Hr.
  apply filter_In in Hr as [Hin Hsel].
  apply sql_in_spec in Hsel. unfold max_timestamps in Hsel.
  apply in_map_iff in Hsel as (name & Hmax & Hkey).
  apply group_keys_In in Hkey as (r0 & Hr0 & Hname0).
  assert (Hg0 : In r0 (group_rows name db)) by (apply group_rows_In; auto).
  destruct (sql_max_timestamp_spec _ r0 Hg0) as (m & Hm & Hmem & Hub).
  rewrite Hm in Hmax. inversion Hmax; subst m; clear Hmax.
  apply in_map_iff in Hmem as (r' & Hts & Hr').
  apply group_rows_In in Hr' as [Hr'db Hname'].
  assert (r' = r) by (eapply (NoDup_map_inj timestamp); eassumption).
  subst r'. split; [exact Hin |].
  intros x Hx Hxname. apply Hub. apply group_rows_In. split; congruence.
Qed.

(** Latest rows of distinct collections, sorted by name, have strictly
    ascending names. *)
Lemma latest_rows_strictly_sorted (db : Table) (l : list ProbeResult) :
  NoDup (map timestamp db) ->
  (forall r, In r l -> latest_in db r) ->
  StronglySorted name_le l -> NoDup l ->
  StronglySorted str_lt (map collection_name l).
Proof.
  intros Hnd. induction l as [| a l IH]; intros Hlat Hsorted Hrows; cbn;
    constructor.
  - apply IH.
    + intros r Hr. apply Hlat. right. exact Hr.
    + inversion Hsorted; assumption.
    + inversion Hrows; assumption.
  - inversion Hsorted as [| ? ? _ Hle]; subst.
    inversion Hrows as [| ? ? Hnotin _]; subst.
    rewrite Forall_forall in *. intros n Hn.
    apply in_map_iff in Hn as (b & <- & Hb).
    specialize (Hle b Hb). unfold name_le in Hle.
    apply str_leb_not_gt in Hle.
    destruct (String.compare (collection_name a) (collection_name b)) eqn:C.
    + apply str_compare_eq in C.
      destruct (Hlat a (or_introl eq_refl)) as [Ha Hamax].
      destruct (Hlat b (or_intror Hb)) as [Hbin Hbmax].
      assert (Hts : timestamp a = timestamp b).
      { apply str_trichotomy; [apply Hamax | apply Hbmax]; auto. }
      destruct Hnotin.
      rewrite (NoDup_map_inj timestamp db a b Hnd Ha Hbin Hts).
      exact Hb.
    + exact C.
    + apply str_compare_gt_lt in C. contradiction.
Qed.

(** X8.  When no two rows of the table carry the same timestamp,
    [get_current_status] returns exactly the latest row of each
    collection: one dictionary for each collection name, in ascending
    order of name. *)
Theorem get_current_status_distinct_timestamps (db : Table) :
  NoDup (map timestamp db) ->
  let status := fst (get_current_status db) in
  map Status.collection_name status = group_keys db /\
  (forall s, In s status <-> exists r, latest_in db r /\ s = status_of_row r).
Proof.
  intros Hnd. cbn zeta. unfold get_current_status; cbn [fst].
  change (fun row : ProbeResult =>
            Status.mk (collection_name row) (url row) (status_code row)
              (response_time row) (timestamp row) (error_message row)
              (is_accessible row)) with status_of_row.
  destruct (current_status_query_sound db) as (Hsorted & Hsub & Hlatest).
  split.
  - rewrite map_map. cbn.
    assert (Hrows : NoDup (current_status_query db)).
    { unfold current_status_query.
      apply (Permutation_NoDup (order_by_perm _)).
      apply NoDup_filter. apply (NoDup_map_inv timestamp). exact Hnd. }
    apply sorted_same_elements; [| apply group_keys_sorted |].
    + apply (latest_rows_strictly_sorted db); try assumption.
      intros r Hr. apply current_status_query_latest; assumption.
    + intros n. rewrite group_keys_In, in_map_iff. split.
      * intros (r & Hn & Hr). exists r. split; auto.
      * intros (r & Hr & Hn).
        destruct (latest_exists db r Hr) as (r' & Hl & Hname).
        exists r'. split; [congruence | auto].
  - intros s. rewrite in_map_iff. split.
    + intros (r & <- & Hr). exists r. split; [| reflexivity].
      apply current_status_query_latest; assumption.
    + intros (r & Hl & ->). exists r. split; [reflexivity | auto].
Qed.

Lemma get_current_status_distinct_timestamps_witness :
  map Status.collection_name (fst (get_current_status table_distinct))
  = ["Europeana"; "Internet Archive"].
Proof.
  apply (get_current_status_distinct_timestamps table_distinct).
  cbn. repeat constructor; cbn; intuition discriminate.
Defined.

(** ** A cycle and the views of the store *)

(** X9.  After a monitoring cycle that completes, [get_current_status]
    lists every configured collection, and for every result of the cycle
    that falls into the window [get_uptime_stats] has an entry for its
    collection with at least one check. *)
Theorem run_monitoring_cycle_visible (targets : list Target)
    (schedule : list Event) (db db' : Table) (results : list ProbeResult)
    (line : string) :
  run_monitoring_cycle targets schedule db
  = Some (Return (results, line), db') ->
  (forall name, In name (map fst targets) ->
     In name (map Status.collection_name (fst (get_current_status db')))) /\
  (forall since_time_of hours r,
     In r results -> str_lt (since_time_of hours) (timestamp r) ->
     exists entry,
       dict_get (fst (get_uptime_stats since_time_of hours db'))
         (collection_name r) = Some entry /\
       1 <= total_checks entry).
Proof.
  intros Hrun.
  destruct (run_monitoring_cycle_returns _ _ _ _ _ _ Hrun)
    as (Hmon & -> & _).
  destruct (monitor_all_collections_returns _ _ _ _ Hmon) as [Hperm _].
  split.
  - intros name Hname.
    apply in_map_iff in Hname as ([n u] & Hn & Hin). cbn in Hn. subst n.
    apply (Permutation_in _ (Permutation_sym Hperm)) in Hin.
    apply in_map_iff in Hin as (r & Hr & Hres).
    inversion Hr as [[Hrn Hru]].
    assert (Hdb : In r (db ++ results)%list) by (apply in_or_app; auto).
    destruct (latest_exists _ r Hdb) as (r' & Hl & Hname).
    destruct (current_status_query_sound (db ++ results)%list)
      as (_ & _ & Hlatest).
    unfold get_current_status; cbn [fst]. rewrite map_map; cbn.
    rewrite <- Hname. apply (in_map collection_name). auto.
  - intros since_time_of hours r Hr Hlt.
    assert (HN : 1 <= count_total (since_time_of hours) (db ++ results)%list
                        (collection_name r)).
    { apply key_iff_checked, group_keys_In. exists r. split; [| reflexivity].
      unfold window_rows. apply filter_In. split.
      - apply in_or_app; auto.
      - apply str_ltb_lt. exact Hlt. }
    rewrite (get_uptime_stats_lookup _ _ _ _ HN).
    eexists. split; [reflexivity |]. exact HN.
Qed.

Lemma run_monitoring_cycle_visible_witness :
  exists results line db',
    run_monitoring_cycle collections schedule_all_down table_shared_instant
    = Some (Return (results, line), db') /\
    In "Perseus Digital Library"
      (map Status.collection_name (fst (get_current_status db'))).
Proof.
  destruct (run_monitoring_cycle collections schedule_all_down
              table_shared_instant) as [[[[results line] | e] db'] |] eqn:Hrun;
    [| vm_compute in Hrun; discriminate | vm_compute in Hrun; discriminate].
  exists results, line, db'. split; [reflexivity |].
  apply (proj1 (run_monitoring_cycle_visible _ _ _ _ _ _ Hrun)).
  vm_compute. tauto.
Defined.

(** ** Uptime statistics *)



Lemma Zsum_add (g h : string -> Z) (keys : list string) :
  Zsum (map (fun n => g n + h n) keys)
  = Zsum (map g keys) + Zsum (map h keys).
Proof.
  unfold Zsum. induction keys as [| k keys IH]; cbn; [reflexivity |].
  rewrite IH. lia.
Qed.

Lemma Zsum_indicator (k : string) (c : Z) (keys : list string) :
  NoDup keys -> In k keys ->
  Zsum (map (fun n => if String.eqb k n then c else 0) keys) = c.
Proof.
  unfold Zsum. induction keys as [| n keys IH]; cbn; [tauto |].
  intros Hnd. inversion Hnd as [| ? ? Hnotin Hnd']; subst.
  assert (Hzero : ~ In k keys ->
                  fold_right Z.add 0
                    (map (fun n => if String.eqb k n then c else 0) keys)
                  = 0).
  { clear. induction keys as [| m keys IH]; cbn; [reflexivity |].
    intros Hout. destruct (String.eqb_spec k m) as [-> | _]; [tauto |].
    rewrite IH; tauto. }
  intros [-> | Hin].
  - rewrite String.eqb_refl, Hzero by exact Hnotin. lia.
  - destruct (String.eqb_spec k n) as [-> | _]; [contradiction |].
    rewrite IH by assumption. lia.
Qed.

(** The groups partition the rows: counted group by group, the rows that
    satisfy [p] are all the rows that satisfy [p]. *)
Lemma group_partition (p : ProbeResult -> bool) (keys : list string)
    (rows : list ProbeResult) :
  NoDup keys -> (forall r, In r rows -> In (collection_name r) keys) ->
  Zsum (map (fun n => Z.of_nat (List.length (filter p (group_rows n rows))))
          keys)
  = Z.of_nat (List.length (filter p rows)).
Proof.
  intros Hnd. induction rows as [| r rows IH]; intros Hcover.
  - unfold Zsum. cbn. clear Hnd Hcover.
    induction keys as [| k keys IHk]; cbn; [reflexivity |].
    rewrite IHk. reflexivity.
  - assert (Hstep : forall n,
               Z.of_nat (List.length (filter p (group_rows n (r :: rows))))
               = Z.of_nat (List.length (filter p (group_rows n rows)))
                 + (if String.eqb (collection_name r) n
                    then (if p r then 1 else 0) else 0)).
    { intros n. unfold group_rows. cbn [filter].
      destruct (String.eqb (collection_name r) n); cbn [filter];
        [destruct (p r); cbn [List.length] |]; lia. }
    rewrite (map_ext _ _ Hstep).
    rewrite (Zsum_add
               (fun n => Z.of_nat (List.length (filter p (group_rows n rows))))
               (fun n => if String.eqb (collection_name r) n
                         then (if p r then 1 else 0) else 0)).
    rewrite IH by (intros x Hx; apply Hcover; right; exact Hx).
    rewrite Zsum_indicator;
      [| exact Hnd | apply Hcover; left; reflexivity].
    cbn [filter]. destruct (p r); cbn [List.length]; lia.
Qed.

Lemma fold_sum_entries (f : Stats -> Z) (F : string -> Stats)
    (keys : list string) (acc : Z) :
  fold_left (fun a (entry : string * Stats) => a + f (snd entry))
    (map (fun n => (n, F n)) keys) acc
  = acc + Zsum (map (fun n => f (F n)) keys).
Proof.
  unfold Zsum.
  revert acc. induction keys as [| k keys IH]; intros acc; cbn; [lia |].
  rewrite IH. lia.
Qed.

Lemma filter_all {A : Type} (l : list A) : filter (fun _ => true) l = l.
Proof. induction l as [| a l IH]; cbn; [| rewrite IH]; reflexivity. Qed.

(** X11.  The checks of the dictionary add up to the rows of the window:
    the sum of [total_checks] over all entries is the number of rows newer
    than [since_time], and the sum of [successful_checks] is the number of
    accessible rows among them. *)
Theorem get_uptime_stats_conservation (since_time_of : Z -> string)
    (hours : Z) (db : Table) :
  let stats := fst (get_uptime_stats since_time_of hours db) in
  let window := window_rows (since_time_of hours) db in
  sum_total_checks stats = Z.of_nat (List.length window) /\
  sum_successful_checks stats
  = Z.of_nat (List.length (filter is_accessible window)).
Proof.
  cbn zeta. unfold sum_total_checks, sum_successful_checks.
  rewrite get_uptime_stats_entries.
  set (window := window_rows (since_time_of hours) db).
  assert (Hnd : NoDup (group_keys window))
    by apply sorted_NoDup, group_keys_sorted.
  assert (Hcover : forall r, In r window ->
                             In (collection_name r) (group_keys window)).
  { intros r Hr. apply group_keys_In. eauto. }
  split.
  - rewrite (fold_sum_entries total_checks
               (fun n => group_stats n window)).
    rewrite <- (filter_all window) at 2.
    rewrite <- (group_partition (fun _ => true) _ _ Hnd Hcover).
    rewrite Z.add_0_l. f_equal. apply map_ext. intros n.
    unfold group_stats, row_stats, sql_count; cbn.
    rewrite filter_all. reflexivity.
  - rewrite (fold_sum_entries successful_checks
               (fun n => group_stats n window)).
    rewrite <- (group_partition is_accessible _ _ Hnd Hcover).
    rewrite Z.add_0_l. f_equal. apply map_ext. intros n.
    unfold group_stats, row_stats; cbn.
    apply sql_sum_accessible_count.
Qed.

Lemma group_keys_nil (rows : list ProbeResult) :
  group_keys rows = [] <-> rows = [].
Proof.
  split; [| intros ->; reflexivity].
  destruct rows as [| r rows]; [reflexivity |].
  intros H.
  assert (Hin : In (collection_name r) (group_keys (r :: rows))).
  { apply group_keys_In. exists r. split; [left |]; reflexivity. }
  rewrite H in Hin. destruct Hin.
Qed.

(** X12.  [get_uptime_stats] returns the empty dictionary exactly when no
    row of the table is newer than [since_time]; an empty table is one such
    case. *)
Theorem get_uptime_stats_empty (since_time_of : Z -> string) (hours : Z)
    (db : Table) :
  (fst (get_uptime_stats since_time_of hours db) = [] <->
   forall r, In r db -> ~ str_lt (since_time_of hours) (timestamp r)) /\
  fst (get_uptime_stats since_time_of hours []) = [].
Proof.
  split; [| reflexivity].
  rewrite get_uptime_stats_entries.
  set (window := window_rows (since_time_of hours) db).
  assert (Hnil : window = [] <->
                 forall r, In r db ->
                           ~ str_lt (since_time_of hours) (timestamp r)).
  { unfold window, window_rows. split.
    - intros Hw r Hr Hlt.
      assert (Hin : In r (filter (fun x => String.ltb (since_time_of hours)
                                              (timestamp x)) db)).
      { apply filter_In. split; [exact Hr | apply str_ltb_lt; exact Hlt]. }
      rewrite Hw in Hin. destruct Hin.
    - intros Hall.
      destruct (filter _ db) as [| r w] eqn:Hw; [reflexivity |].
      assert (Hin : In r (filter (fun x => String.ltb (since_time_of hours)
                                              (timestamp x)) db))
        by (rewrite Hw; left; reflexivity).
      apply filter_In in Hin as [Hr Hlt]. apply str_ltb_lt in Hlt.
      destruct (Hall r Hr Hlt). }
  rewrite <- Hnil, <- group_keys_nil.
  destruct (group_keys window); cbn; split; congruence.
Qed.

Lemma filter_length_mono {A : Type} (f g : A -> bool) (l : list A) :
  (forall x, f x = true -> g x = true) ->
  (List.length (filter f l) <= List.length (filter g l))%nat.
Proof.
  intros Himp. induction l as [| a l IH]; cbn; [lia |].
  destruct (f a) eqn:Hf.
  - rewrite (Himp a Hf). cbn. lia.
  - destruct (g a); cbn; lia.
Qed.

Lemma window_narrower_counts (since1 since2 : string) (db : Table)
    (name : string) :
  since1 = since2 \/ str_lt since1 since2 ->
  count_total since2 db name <= count_total since1 db name /\
  count_accessible since2 db name <= count_accessible since1 db name.
Proof.
  intros Hle.
  assert (Himp : forall r, String.ltb since2 (timestamp r) = true ->
                           String.ltb since1 (timestamp r) = true).
  { intros r H. destruct Hle as [-> | Hlt]; [exact H |].
    apply str_ltb_lt. apply str_ltb_lt in H.
    eapply str_lt_trans; eassumption. }
  unfold count_total, count_accessible, checks_in_window, window_rows.
  rewrite !filter_filter_and.
  split; apply Nat2Z.inj_le; apply filter_length_mono; intros r Hr.
  - apply andb_true_iff in Hr as [H1 H2].
    apply andb_true_iff. auto.
  - apply andb_true_iff in Hr as [Hr H3].
    apply andb_true_iff in Hr as [H1 H2].
    rewrite (Himp r H1), H2, H3. reflexivity.
Qed.

(** X13.  Narrowing the window never adds checks: when the window of one
    call opens no earlier than that of another, every collection that has
    an entry in the first has one in the second, with at least as many
    checks and successful checks. *)
Theorem get_uptime_stats_narrower (since_of1 since_of2 : Z -> string)
    (hours1 hours2 : Z) (db : Table) (name : string) (entry2 : Stats) :
  since_of1 hours1 = since_of2 hours2 \/
  str_lt (since_of1 hours1) (since_of2 hours2) ->
  dict_get (fst (get_uptime_stats since_of2 hours2 db)) name = Some entry2 ->
  exists entry1,
    dict_get (fst (get_uptime_stats since_of1 hours1 db)) name
    = Some entry1 /\
    total_checks entry2 <= total_checks entry1 /\
    successful_checks entry2 <= successful_checks entry1.
Proof.
  intros Hle Hget.
  destruct (window_narrower_counts _ _ db name Hle) as [Htotal Hacc].
  destruct (count_total_cases (since_of2 hours2) db name) as [HN | HN].
  - rewrite (get_uptime_stats_lookup_none _ _ _ _ HN) in Hget. discriminate.
  - rewrite (get_uptime_stats_lookup _ _ _ _ HN) in Hget.
    inversion Hget; subst entry2; clear Hget.
    assert (HN1 : 1 <= count_total (since_of1 hours1) db name) by lia.
    rewrite (get_uptime_stats_lookup _ _ _ _ HN1).
    eexists. split; [reflexivity |].
    unfold group_stats, row_stats; cbn.
    rewrite !count_total_group, !count_accessible_group. auto.
Qed.

Lemma get_uptime_stats_narrower_witness :
  exists entry2 entry1,
    dict_get
      (fst (get_uptime_stats (fun _ => "2024-05-01T10:30:00") 1
              table_shared_instant)) "Europeana" = Some entry2 /\
    dict_get (fst (get_uptime_stats since_midnight 24 table_shared_instant))
      "Europeana" = Some entry1 /\
    total_checks entry2 <= total_checks entry1 /\
    successful_checks entry2 <= successful_checks entry1.
Proof.
  destruct (dict_get
              (fst (get_uptime_stats (fun _ => "2024-05-01T10:30:00") 1
                      table_shared_instant)) "Europeana")
    as [entry2 |] eqn:Hget; [| vm_compute in Hget; discriminate].
  destruct (get_uptime_stats_narrower since_midnight
              (fun _ => "2024-05-01T10:30:00") 24 1 table_shared_instant
              "Europeana" entry2 (or_intror eq_refl) Hget)
    as (entry1 & H1 & Ht & Hs).
  exists entry2, entry1. repeat split; assumption.
Defined.

(** ** The report *)

Lemma up_count_filter (current_status : list Status.t) :
  up_count current_status
  = Z.of_nat (List.length (filter Status.is_accessible current_status)).
Proof.
  unfold up_count.
  assert (H : forall acc,
             fold_left
               (fun a s => if Status.is_accessible s then a + 1 else a)
               current_status acc
             = acc + Z.of_nat (List.length
                                 (filter Status.is_accessible current_status))).
  { induction current_status as [| s l IH]; intros acc; cbn.
    - lia.
    - rewrite IH. destruct (Status.is_accessible s); cbn [List.length]; lia. }
  rewrite H. lia.
Qed.

Lemma filter_split_length {A : Type} (f : A -> bool) (l : list A) :
  (List.length (filter f l) + List.length (filter (fun x => negb (f x)) l)
   = List.length l)%nat.
Proof.
  induction l as [| a l IH]; cbn; [reflexivity |].
  destruct (f a); cbn; lia.
Qed.

(** X14.  The two counts of the report header are the numbers of
    accessible and of inaccessible entries of the status list: neither is
    negative, together they make up the entries listed, and the header
    line prints them. *)
Theorem status_header_counts (current_status : list Status.t) :
  up_count current_status
  = Z.of_nat (List.length (filter Status.is_accessible current_status)) /\
  down_count current_status
  = Z.of_nat (List.length
                (filter (fun s => negb (Status.is_accessible s))
                   current_status)) /\
  0 <= up_count current_status /\
  0 <= down_count current_status /\
  up_count current_status + down_count current_status
  = Z.of_nat (List.length current_status) /\
  status_header current_status
  = ("Current Status: "
     ++ str_int (Z.of_nat (List.length
                             (filter Status.is_accessible current_status)))
     ++ " UP, "
     ++ str_int (Z.of_nat (List.length
                             (filter (fun s => negb (Status.is_accessible s))
                                current_status)))
     ++ " DOWN")%string.
Proof.
  pose proof (filter_split_length Status.is_accessible current_status) as Hs.
  assert (Hdown : down_count current_status
                  = Z.of_nat (List.length
                                (filter (fun s => negb (Status.is_accessible s))
                                   current_status))).
  { unfold down_count. rewrite up_count_filter. lia. }
  unfold status_header. rewrite Hdown, up_count_filter.
  repeat split; lia.
Qed.

(** X15.  In the report a collection all of whose checks in the window
    succeeded has an uptime of 100 and gets the first mark (uptime at
    least 99), and one none of whose checks succeeded has an uptime of 0
    and gets the last (uptime below 95). *)
Theorem uptime_status_extremes (since_time_of : Z -> string) (hours : Z)
    (db : Table) (name : string) (entry : Stats) :
  In (name, entry) (fst (get_uptime_stats since_time_of hours db)) ->
  (successful_checks entry = total_checks entry ->
   uptime_percent entry = 100%Q /\
   uptime_status (uptime_percent entry) = icon_green) /\
  (successful_checks entry = 0 ->
   uptime_percent entry = 0%Q /\
   uptime_status (uptime_percent entry) = icon_red).
Proof.
  rewrite get_uptime_stats_entries, in_map_iff.
  intros (n & Heq & Hkey). inversion Heq; subst; clear Heq.
  apply key_iff_checked in Hkey.
  unfold group_stats, row_stats; cbn.
  rewrite count_total_group, count_accessible_group.
  assert (Hpos : (0 <? count_total (since_time_of hours) db name) = true)
    by (apply Z.ltb_lt; lia).
  rewrite Hpos.
  split.
  - intros ->. rewrite (uptime_all _ Hkey). split; reflexivity.
  - intros ->. rewrite uptime_none. split; reflexivity.
Qed.

Lemma uptime_status_extremes_witness :
  exists entry,
    In ("Internet Archive", entry)
      (fst (get_uptime_stats since_midnight 24 table_shared_instant)) /\
    uptime_percent entry = 100%Q /\
    uptime_status (uptime_percent entry) = icon_green.
Proof.
  destruct (dict_get
              (fst (get_uptime_stats since_midnight 24 table_shared_instant))
              "Internet Archive") as [entry |] eqn:Hget;
    [| vm_compute in Hget; discriminate].
  exists entry.
  assert (Hin : In ("Internet Archive", entry)
                  (fst (get_uptime_stats since_midnight 24
                          table_shared_instant))).
  { vm_compute in Hget. inversion Hget; subst entry.
    vm_compute. right. left. reflexivity. }
  split; [exact Hin |].
  apply (proj1 (uptime_status_extremes since_midnight 24
                  table_shared_instant "Internet Archive" entry Hin)).
  vm_compute in Hget. inversion Hget. reflexivity.
Defined.
